(** * valve.vdf: the Valve Data Format module of python-valve

    A shallow embedding of [src/valve/vdf.py] and the properties of its
    transcluders, its tree-building decoder and its [load]/[loads]/
    [dump]/[dumps] entry points.

    Python values are modelled as follows.
    - [str] used as a name, a key or a scalar is a [string]; text that is
      fed to the decoder character by character is a [list ascii].
    - An exception is a value of [exn]: its class and its message.
    - A method that mutates [self] is a function from the receiver to an
      outcome and the receiver after the call, so that what a raising call
      leaves behind can be stated.
    - [dict] objects live in a store and are referred to by address:
      [VDFObjectDecoder] keeps the same dictionary in its parent's entry
      and on its stack, and writes through the stack. *)

From stdpp Require Import gmap strings list fin_maps.
From Stdlib Require Import Ascii.

(** ** Exceptions and outcomes *)

Inductive exn : Type :=
  | VDFError (msg : string)
  | VDFTransclusionError (msg : string)
  | LookupError (msg : string)
  | IndexError (msg : string).

Inductive result (A : Type) : Type :=
  | Ok (a : A)
  | Raise (e : exn).
Arguments Ok {A} a.
Arguments Raise {A} e.

Definition is_transclusion_error {A} (r : result A) : Prop :=
  ∃ msg, r = Raise (VDFTransclusionError msg).

Definition is_format_error {A} (r : result A) : Prop :=
  ∃ msg, r = Raise (VDFError msg).

Definition is_lookup_error {A} (r : result A) : Prop :=
  ∃ msg, r = Raise (LookupError msg).

Definition is_index_error {A} (r : result A) : Prop :=
  ∃ msg, r = Raise (IndexError msg).

(** A method on a receiver of type [S]: the outcome and the receiver
    after the call. *)
Definition method (S A : Type) : Type := S → result A * S.

(** ** Transcluders

    [transclude] is a generator function in the subclasses that yield:
    its body runs when the iterator is first advanced.  The embedding
    gives the outcome of exhausting the iterator: the fragments yielded,
    or the exception raised on the way. *)

Class VDFTranscluder (T : Type) : Type :=
  transclude : T → string → result (list string).

(** [class VDFIgnoreTranscluder]: [yield ""]. *)
Inductive VDFIgnoreTranscluder : Type := IgnoreTranscluder.

#[export] Instance ignore_transclude : VDFTranscluder VDFIgnoreTranscluder :=
  fun _ _ => Ok [EmptyString].

(** [class VDFDisabledTranscluder]:
    [raise VDFTransclusionError("Transclusion disabled")]. *)
Inductive VDFDisabledTranscluder : Type := DisabledTranscluder.

#[export] Instance disabled_transclude : VDFTranscluder VDFDisabledTranscluder :=
  fun _ _ => Raise (VDFTransclusionError "Transclusion disabled").

(** [class VDFTestTranscluder]: [self._documents] is a dict from names to
    document contents. *)
Record VDFTestTranscluder : Type := TestTranscluder {
  _documents : gmap string string
}.

(** [__init__]: [self._documents = {}]. *)
Definition VDFTestTranscluder_init : VDFTestTranscluder :=
  TestTranscluder ∅.

Definition already_registered (name : string) : string :=
  "Document with name '" +:+ name +:+ "' already registered".

Definition no_document (name : string) : string :=
  "No document with name '" +:+ name +:+ "'".

(** [register(self, name, document)]. *)
Definition register (name document : string) : method VDFTestTranscluder unit :=
  fun self =>
    match _documents self !! name with
    | Some _ => (Raise (LookupError (already_registered name)), self)
    | None => (Ok tt, TestTranscluder (<[name := document]> (_documents self)))
    end.

(** [unregister(self, name)]: [self._documents.pop(name, None)]. *)
Definition unregister (name : string) : method VDFTestTranscluder unit :=
  fun self =>
    match _documents self !! name with
    | None => (Raise (LookupError (no_document name)), self)
    | Some _ => (Ok tt, TestTranscluder (delete name (_documents self)))
    end.

(** [transclude(self, name)]: [yield self._documents[name]]. *)
#[export] Instance test_transclude : VDFTranscluder VDFTestTranscluder :=
  fun self name =>
    match _documents self !! name with
    | None => Raise (VDFTransclusionError (no_document name))
    | Some document => Ok [document]
    end.

(** ** Dictionaries and the object store

    A key of a dictionary built by [VDFObjectDecoder] is whatever
    [self._key] holds: [None] or a string.  A value is a string or a
    reference to another dictionary.  A dictionary keeps its entries in
    insertion order; storing under a key that is present replaces the
    value where the key stands. *)

Inductive pykey : Type :=
  | KNone
  | KStr (s : string).

#[export] Instance pykey_eq_dec : EqDecision pykey.
Proof. solve_decision. Defined.

Abbreviation addr := nat.

Inductive pyval : Type :=
  | VStr (s : string)
  | VRef (a : addr).

#[export] Instance pyval_eq_dec : EqDecision pyval.
Proof. solve_decision. Defined.

Definition pydict : Type := list (pykey * pyval).

(** [d[k] = v]. *)
Fixpoint dict_setitem (k : pykey) (v : pyval) (d : pydict) : pydict :=
  match d with
  | [] => [(k, v)]
  | (k', v') :: d' =>
      if decide (k' = k) then (k', v) :: d'
      else (k', v') :: dict_setitem k v d'
  end.

(** [d[k]], as an option. *)
Fixpoint dict_getitem (k : pykey) (d : pydict) : option pyval :=
  match d with
  | [] => None
  | (k', v') :: d' => if decide (k' = k) then Some v' else dict_getitem k d'
  end.

(** [list(d)]: the keys in insertion order. *)
Definition dict_keys (d : pydict) : list pykey := d.*1.

(** ** The tree-building decoder *)

Module VDFObjectDecoder.

(** [store] holds every dictionary allocated by the decoder; the
    attributes [object] and [_stack] hold addresses into it. *)
Record t : Type := Make {
  store : list pydict;
  object : addr;
  _key : pykey;
  _stack : list addr
}.

(** [__init__(self, transcluder)]: [self.object = {}],
    [self._key = None], [self._stack = [self.object]]. *)
Definition init : t :=
  {| store := [[]]; object := 0; _key := KNone; _stack := [0] |}.

(** [VDFObjectDecoder(transcluder)]: the object that [__init__] has
    initialised.  [__init__] binds [transcluder] and does not use it: it
    keeps no reference to it and does not call [VDFDecoder.__init__]. *)
Definition new {T : Type} (transcluder : T) : t := init.

(** [on_object_enter(self)].  [self._stack[-1]] raises on an empty
    list before anything reachable from [self] is written. *)
Definition on_object_enter : method t unit :=
  fun self =>
    let object_ := length (store self) in
    match last (_stack self) with
    | None => (Raise (IndexError "list index out of range"), self)
    | Some top =>
        (Ok tt,
         {| store := alter (dict_setitem (_key self) (VRef object_)) top
                       (store self ++ [[]]);
            object := object self;
            _key := KNone;
            _stack := _stack self ++ [object_] |})
    end.

(** [on_object_exit(self)]: [self._stack.pop()]. *)
Definition on_object_exit : method t unit :=
  fun self =>
    match _stack self with
    | [] => (Raise (IndexError "pop from empty list"), self)
    | _ :: _ =>
        (Ok tt,
         {| store := store self;
            object := object self;
            _key := _key self;
            _stack := removelast (_stack self) |})
    end.

(** [on_key(self, key)]. *)
Definition on_key (key : string) : method t unit :=
  fun self =>
    (Ok tt,
     {| store := store self;
        object := object self;
        _key := KStr key;
        _stack := _stack self |}).

(** [on_value(self, value)]. *)
Definition on_value (value : string) : method t unit :=
  fun self =>
    match last (_stack self) with
    | None => (Raise (IndexError "list index out of range"), self)
    | Some top =>
        (Ok tt,
         {| store := alter (dict_setitem (_key self) (VStr value)) top
                       (store self);
            object := object self;
            _key := KNone;
            _stack := _stack self |})
    end.

End VDFObjectDecoder.

(** The four callbacks as events, and a run of events against a decoder:
    the run stops at the first call that raises. *)
Inductive event : Type :=
  | EnterObject
  | ExitObject
  | Key (key : string)
  | Value (value : string).

Definition call (e : event) : method VDFObjectDecoder.t unit :=
  match e with
  | EnterObject => VDFObjectDecoder.on_object_enter
  | ExitObject => VDFObjectDecoder.on_object_exit
  | Key k => VDFObjectDecoder.on_key k
  | Value v => VDFObjectDecoder.on_value v
  end.

Fixpoint run_events (evs : list event) : method VDFObjectDecoder.t unit :=
  fun self =>
    match evs with
    | [] => (Ok tt, self)
    | e :: evs' =>
        match call e self with
        | (Ok _, self') => run_events evs' self'
        | (Raise x, self') => (Raise x, self')
        end
    end.

(** The document rooted at an address, read out of the store.  [fuel]
    bounds the nesting that is followed. *)
Unset Elimination Schemes.
Inductive Node : Type :=
  | Scalar (s : string)
  | Object (entries : list (pykey * Node)).
Set Elimination Schemes.

Fixpoint reify (fuel : nat) (h : list pydict) (a : addr) : option Node :=
  match fuel with
  | 0 => None
  | S fuel' =>
      d ← h !! a;
      entries ← mapM (fun kv : pykey * pyval =>
                        match kv.2 with
                        | VStr s => Some (kv.1, Scalar s)
                        | VRef b => n ← reify fuel' h b; Some (kv.1, n)
                        end) d;
      Some (Object entries)
  end.

(** The document a decoder has built: [decoder.object]. *)
Definition document (self : VDFObjectDecoder.t) : option Node :=
  reify (length (VDFObjectDecoder.store self))
        (VDFObjectDecoder.store self) (VDFObjectDecoder.object self).

(** ** The decoder's callbacks

    [VDFDecoder] declares [on_object_enter], [on_object_exit], [on_key]
    and [on_value]; a subclass overrides them. *)

Class VDFDecoderHooks (S : Type) : Type := {
  on_object_enter : method S unit;
  on_object_exit : method S unit;
  on_key : string → method S unit;
  on_value : string → method S unit
}.

#[export] Instance object_decoder_hooks : VDFDecoderHooks VDFObjectDecoder.t := {|
  on_object_enter := VDFObjectDecoder.on_object_enter;
  on_object_exit := VDFObjectDecoder.on_object_exit;
  on_key := VDFObjectDecoder.on_key;
  on_value := VDFObjectDecoder.on_value
|}.

(** ** Characters and tokens

    The source keeps the grammar of the format in the docstring of
    [VDFDecoder] and leaves out the bodies of [feed] and [complete].
    The tokenizer and the parser below are modelled from the
    specification of the decoder (its tokenizer rules and its state
    machine).  Where the rules leave room the model reads them as
    follows: a slash or a double quote inside an unquoted token belongs
    to the token; an unquoted token is complete once the character that
    ends it is in the buffer; an escape sequence that is not in the table
    is malformed input. *)

(** Text fed to the decoder.  Characters other than those the grammar
    names are all treated alike. *)
Definition text : Type := list ascii.

Definition HTAB : ascii := Eval cbv in ascii_of_nat 9.
Definition LF : ascii := Eval cbv in ascii_of_nat 10.
Definition SP : ascii := Eval cbv in ascii_of_nat 32.
Definition DQUOTE : ascii := Eval cbv in ascii_of_nat 34.
Definition SLASH : ascii := Eval cbv in ascii_of_nat 47.
Definition BACKSLASH : ascii := Eval cbv in ascii_of_nat 92.
Definition LBRACE : ascii := Eval cbv in ascii_of_nat 123.
Definition RBRACE : ascii := Eval cbv in ascii_of_nat 125.
Definition LOWER_N : ascii := Eval cbv in ascii_of_nat 110.
Definition LOWER_T : ascii := Eval cbv in ascii_of_nat 116.

(** [WSP] of the grammar in the docstring of [VDFDecoder]: space and
    horizontal tab. *)
Definition is_wsp (c : ascii) : bool :=
  bool_decide (c = SP) || bool_decide (c = HTAB).

(** Modelled from the spec: the characters at which an unquoted token
    stops (whitespace, a line break, a brace); the tokenizer of
    [VDFDecoder.feed] is not in the source. *)
Definition ends_unquoted (c : ascii) : bool :=
  is_wsp c || bool_decide (c = LF)
  || bool_decide (c = LBRACE) || bool_decide (c = RBRACE).

(** Modelled from the spec: the table of escape sequences, read after a
    backslash; the tokenizer of [VDFDecoder.feed] is not in the source. *)
Definition unescape (c : ascii) : option ascii :=
  if decide (c = BACKSLASH) then Some BACKSLASH
  else if decide (c = DQUOTE) then Some DQUOTE
  else if decide (c = LOWER_T) then Some HTAB
  else if decide (c = LOWER_N) then Some LF
  else None.

(** Modelled from the spec: the kinds of token; the tokenizer of
    [VDFDecoder.feed] is not in the source.  A directive carries its
    name. *)
Inductive token : Type :=
  | QuotedToken (content : string)
  | UnquotedToken (content : string)
  | OpenBrace
  | CloseBrace
  | LineBreak
  | CommentStart
  | TransclusionDirective (name : string).

(** Modelled from the spec: what the tokenizer gives on the unconsumed
    buffer: a complete item and the rest of the buffer, "need more
    input", or malformed input.  The tokenizer of [VDFDecoder.feed] is
    not in the source. *)
Inductive scan (A : Type) : Type :=
  | Got (a : A) (rest : text)
  | NeedMore
  | Malformed.
Arguments Got {A} a rest.
Arguments NeedMore {A}.
Arguments Malformed {A}.

(** One more character in front of the item scanned. *)
Definition scan_cons (c : ascii) (r : scan text) : scan text :=
  match r with
  | Got t rest => Got (c :: t) rest
  | NeedMore => NeedMore
  | Malformed => Malformed
  end.

(** Modelled from the spec: whitespace between tokens is skipped; the
    tokenizer of [VDFDecoder.feed] is not in the source. *)
Fixpoint skip_wsp (s : text) : text :=
  match s with
  | [] => []
  | c :: r => if is_wsp c then skip_wsp r else s
  end.

(** Modelled from the spec: the body of a quoted token, read after its
    opening quote up to the first quote that is not escaped; the
    tokenizer of [VDFDecoder.feed] is not in the source. *)
Fixpoint scan_quoted (s : text) : scan text :=
  match s with
  | [] => NeedMore
  | c :: r =>
      if decide (c = DQUOTE) then Got [] r
      else if decide (c = BACKSLASH) then
        match r with
        | [] => NeedMore
        | e :: r' =>
            match unescape e with
            | Some x => scan_cons x (scan_quoted r')
            | None => Malformed
            end
        end
      else scan_cons c (scan_quoted r)
  end.

(** Modelled from the spec: an unquoted token, which runs until
    whitespace, a line break or a brace and may hold escape sequences;
    the character that ends it stays in the buffer.  The tokenizer of
    [VDFDecoder.feed] is not in the source. *)
Fixpoint scan_unquoted (s : text) : scan text :=
  match s with
  | [] => NeedMore
  | c :: r =>
      if ends_unquoted c then Got [] s
      else if decide (c = BACKSLASH) then
        match r with
        | [] => NeedMore
        | e :: r' =>
            match unescape e with
            | Some x => scan_cons x (scan_unquoted r')
            | None => Malformed
            end
        end
      else scan_cons c (scan_unquoted r)
  end.

(** Modelled from the spec: what follows the token [#base] of a
    transclusion directive: mandatory whitespace, a quoted name, optional
    whitespace and a line break.  The tokenizer of [VDFDecoder.feed] is
    not in the source. *)
Definition scan_directive (s : text) : scan token :=
  match s with
  | [] => NeedMore
  | c :: _ =>
      if is_wsp c then
        match skip_wsp s with
        | [] => NeedMore
        | q :: r =>
            if decide (q = DQUOTE) then
              match scan_quoted r with
              | Got name r' =>
                  match skip_wsp r' with
                  | [] => NeedMore
                  | l :: r'' =>
                      if decide (l = LF)
                      then Got (TransclusionDirective (String.string_of_list_ascii name)) r''
                      else Malformed
                  end
              | NeedMore => NeedMore
              | Malformed => Malformed
              end
            else Malformed
        end
      else Malformed
  end.

Definition BASE : text := Eval cbv in String.list_ascii_of_string "#base".

(** Modelled from the spec: a quoted or unquoted token; where a key is
    expected the token [#base] opens a transclusion directive.  The
    tokenizer of [VDFDecoder.feed] is not in the source. *)
Definition word (key_expected quoted : bool) (r : scan text) : scan token :=
  match r with
  | Got t rest =>
      if key_expected && bool_decide (t = BASE) then scan_directive rest
      else if quoted then Got (QuotedToken (String.string_of_list_ascii t)) rest
      else Got (UnquotedToken (String.string_of_list_ascii t)) rest
  | NeedMore => NeedMore
  | Malformed => Malformed
  end.

(** Modelled from the spec: the tokenizer, which from the unconsumed
    buffer produces the next complete token or signals "need more
    input"; [VDFDecoder.feed] is not in the source. *)
Definition next_token (key_expected : bool) (s : text) : scan token :=
  match skip_wsp s with
  | [] => NeedMore
  | c :: r =>
      if decide (c = LF) then Got LineBreak r
      else if decide (c = LBRACE) then Got OpenBrace r
      else if decide (c = RBRACE) then Got CloseBrace r
      else if decide (c = SLASH) then Got CommentStart r
      else if decide (c = DQUOTE) then word key_expected true (scan_quoted r)
      else word key_expected false (scan_unquoted (c :: r))
  end.

(** Modelled from the spec: a comment runs through the end of the line;
    this gives the rest of the buffer after the line break, if the line
    break is there.  The tokenizer of [VDFDecoder.feed] is not in the
    source. *)
Fixpoint drop_line (s : text) : option text :=
  match s with
  | [] => None
  | c :: r => if decide (c = LF) then Some r else drop_line r
  end.

(** ** The incremental parser *)

(** Modelled from the spec: the two states in which the parser reads
    tokens; the parser of [VDFDecoder.feed] is not in the source. *)
Inductive expectation : Type :=
  | ExpectKeyOrClose
  | ExpectValueOrBlock.

#[export] Instance expectation_eq_dec : EqDecision expectation.
Proof. solve_decision. Defined.

(** Modelled from the spec: the states of the parser; [InComment] keeps
    the state to return to at the end of the line.  The parser of
    [VDFDecoder.feed] is not in the source. *)
Inductive parser_state : Type :=
  | Expect (m : expectation)
  | InComment (prior : expectation).

Definition key_expected (m : expectation) : bool :=
  bool_decide (m = ExpectKeyOrClose).

(** Modelled from the spec: the attributes of a [VDFDecoder], whose
    [__init__] is not in the source: the parser's state, the height of
    its nesting stack, the unconsumed buffer; and the attributes [sub]
    that the subclass adds. *)
Record VDFDecoder (S : Type) : Type := Decoder {
  state : parser_state;
  nesting : nat;
  buffer : text;
  sub : S
}.
Arguments Decoder {S} state nesting buffer sub.
Arguments state {S} _.
Arguments nesting {S} _.
Arguments buffer {S} _.
Arguments sub {S} _.

Definition with_buffer {S} (b : text) (d : VDFDecoder S) : VDFDecoder S :=
  Decoder (state d) (nesting d) b (sub d).

(** One move of the parser: a token was consumed, more input is needed,
    or the decode is aborted by an exception. *)
Inductive progress (S : Type) : Type :=
  | Stepped (d : VDFDecoder S)
  | Stalled
  | Failed (e : exn).
Arguments Stepped {S} d.
Arguments Stalled {S}.
Arguments Failed {S} e.

(** The outcome of a computation bounded by fuel. *)
Inductive outcome (A : Type) : Type :=
  | Done (r : result A)
  | OutOfFuel.
Arguments Done {A} r.
Arguments OutOfFuel {A}.

(** Modelled from the spec: the fragments a transcluder yields are
    concatenated; the call of the transcluder in [VDFDecoder.feed] is not
    in the source. *)
Definition splice (fragments : list string) : text :=
  concat (String.list_ascii_of_string <$> fragments).

Section Decoder.

Context {S : Type} `{!VDFDecoderHooks S}.

(** The configured transcluder's [transclude]. *)
Variable resolve : string → result (list string).

(** A callback, then the rest of the move. *)
Definition after (r : result unit * S) (k : S → VDFDecoder S) : progress S :=
  match r with
  | (Ok _, s) => Stepped (k s)
  | (Raise e, _) => Failed e
  end.

(** Modelled from the spec: the transitions of the parser on a token
    ([rest] is the buffer after the token); [VDFDecoder.feed] is not in
    the source. *)
Definition transition (m : expectation) (tok : token) (rest : text)
    (d : VDFDecoder S) : progress S :=
  match tok with
  | LineBreak => Stepped (Decoder (Expect m) (nesting d) rest (sub d))
  | CommentStart => Stepped (Decoder (InComment m) (nesting d) rest (sub d))
  | QuotedToken w | UnquotedToken w =>
      match m with
      | ExpectKeyOrClose =>
          after (on_key w (sub d))
            (Decoder (Expect ExpectValueOrBlock) (nesting d) rest)
      | ExpectValueOrBlock =>
          after (on_value w (sub d))
            (Decoder (Expect ExpectKeyOrClose) (nesting d) rest)
      end
  | OpenBrace =>
      match m with
      | ExpectKeyOrClose => Failed (VDFError "unexpected open brace")
      | ExpectValueOrBlock =>
          after (on_object_enter (sub d))
            (Decoder (Expect ExpectKeyOrClose) (Datatypes.S (nesting d)) rest)
      end
  | CloseBrace =>
      match m with
      | ExpectKeyOrClose =>
          if decide (nesting d ≤ 1)
          then Failed (VDFError "unmatched close brace")
          else after (on_object_exit (sub d))
                 (Decoder (Expect ExpectKeyOrClose) (pred (nesting d)) rest)
      | ExpectValueOrBlock => Failed (VDFError "key without a value")
      end
  | TransclusionDirective name =>
      match m with
      | ExpectKeyOrClose =>
          match resolve name with
          | Ok fragments =>
              Stepped (Decoder (Expect ExpectKeyOrClose) (nesting d)
                         (splice fragments ++ rest) (sub d))
          | Raise e => Failed e
          end
      | ExpectValueOrBlock => Failed (VDFError "unexpected directive")
      end
  end.

(** Modelled from the spec: one move of the incremental parser on the
    unconsumed buffer; [VDFDecoder.feed] is not in the source. *)
Definition step (d : VDFDecoder S) : progress S :=
  match state d with
  | InComment prior =>
      match drop_line (buffer d) with
      | Some rest => Stepped (Decoder (Expect prior) (nesting d) rest (sub d))
      | None => Stalled
      end
  | Expect m =>
      match next_token (key_expected m) (buffer d) with
      | Got tok rest => transition m tok rest d
      | NeedMore => Stalled
      | Malformed => Failed (VDFError "malformed token")
      end
  end.

(** Modelled from the spec: the parser moves until more input is
    needed; whitespace in front of the buffer is consumed when it
    stalls.  [VDFDecoder.feed] is not in the source.  A transcluder may
    give text that holds a directive for itself, so the moves are bounded
    by [fuel]. *)
Fixpoint pump (fuel : nat) (d : VDFDecoder S) : outcome (VDFDecoder S) :=
  match fuel with
  | 0 => OutOfFuel
  | Datatypes.S fuel' =>
      match step d with
      | Stepped d' => pump fuel' d'
      | Stalled => Done (Ok (with_buffer (skip_wsp (buffer d)) d))
      | Failed e => Done (Raise e)
      end
  end.

(** Modelled from the spec: [VDFDecoder.feed(self, fragment)], whose
    body is not in the source: the fragment joins the unconsumed buffer
    and the parser runs on it. *)
Definition feed (fuel : nat) (fragment : text) (d : VDFDecoder S)
    : outcome (VDFDecoder S) :=
  pump fuel (with_buffer (buffer d ++ fragment) d).

(** Modelled from the spec: [VDFDecoder.complete(self)], whose body is
    not in the source: it succeeds only in [ExpectKeyOrClose], with one
    entry on the nesting stack and no partially consumed token. *)
Definition complete (d : VDFDecoder S) : result (VDFDecoder S) :=
  match state d with
  | Expect ExpectKeyOrClose =>
      if decide (nesting d = 1) then
        match skip_wsp (buffer d) with
        | [] => Ok d
        | _ :: _ => Raise (VDFError "incomplete token at end of input")
        end
      else Raise (VDFError "unterminated block")
  | Expect ExpectValueOrBlock => Raise (VDFError "key without a value")
  | InComment _ => Raise (VDFError "unterminated comment")
  end.

(** Modelled from the spec: [VDFDecoder.__init__(self, transcluder)],
    whose body is not in the source: the parser starts in
    [ExpectKeyOrClose] with the root alone on the nesting stack and an
    empty buffer.  [s] is what the subclass's [__init__] sets. *)
Definition VDFDecoder_init (s : S) : VDFDecoder S :=
  Decoder (Expect ExpectKeyOrClose) 1 [] s.

(** [for chunk in ...: decoder.feed(chunk)]; an exception ends the
    loop. *)
Fixpoint feed_all (fuel : nat) (chunks : list text) (d : VDFDecoder S)
    : outcome (VDFDecoder S) :=
  match chunks with
  | [] => Done (Ok d)
  | chunk :: chunks' =>
      match feed fuel chunk d with
      | Done (Ok d') => feed_all fuel chunks' d'
      | Done (Raise e) => Done (Raise e)
      | OutOfFuel => OutOfFuel
      end
  end.

(** Modelled from the spec: the [with] block of [load].
    [VDFDecoder.__enter__] and [__exit__] are not in the source:
    [__enter__] gives the decoder itself, and [__exit__] calls
    [complete] when the block ends without an exception and lets an
    exception through otherwise. *)
Definition decode (fuel : nat) (chunks : list text) (s : S)
    : outcome (VDFDecoder S) :=
  match feed_all fuel chunks (VDFDecoder_init s) with
  | Done (Ok d) => Done (complete d)
  | Done (Raise e) => Done (Raise e)
  | OutOfFuel => OutOfFuel
  end.

End Decoder.

(** ** [load], [loads], [dump], [dumps] *)

(** Any object whose class implements [VDFTranscluder]. *)
Inductive transcluder_object : Type :=
  | TranscluderObject {T : Type} `{!VDFTranscluder T} (self : T).

Definition transclude_method (t : transcluder_object)
    : string → result (list string) :=
  match t with
  | TranscluderObject self => transclude self
  end.

(** A Python object reference to a dictionary: the store and the
    address. *)
Definition pyobject : Type := list pydict * addr.

(** [io.StringIO(vdf)], as the text that is still to be read. *)
Definition StringIO (vdf : text) : text := vdf.

(** [readable.read(n)]: the characters read and the readable after. *)
Definition read (n : nat) (readable : text) : text * text :=
  (take n readable, drop n readable).

(** [iter(lambda: readable.read(size), '')]: the chunks read until the
    first empty one.  Every chunk but the last empty one takes a
    character, so the length of the contents bounds the iteration. *)
Fixpoint read_chunks (size bound : nat) (readable : text) : list text :=
  match bound with
  | 0 => []
  | Datatypes.S bound' =>
      match read size readable with
      | ([], _) => []
      | (chunk, readable') => chunk :: read_chunks size bound' readable'
      end
  end.

Definition chunks_of (readable : text) : list text :=
  read_chunks 4096 (length readable) readable.

(** Modelled from the spec: the transcluder that the decoder made by
    [VDFObjectDecoder(transcluder)] defers to at a directive, which is
    missing from the source.  There [VDFObjectDecoder.__init__] sets
    [object], [_key] and [_stack] and nothing else: the decoder keeps no
    reference to [transcluder], and [VDFDecoder.__init__], whose body is
    not in the source, is not called.  Following the [VDFTranscluder]
    docstring (the decoder defers to a configured transcluder) and spec
    section 4.2, the decoder is taken to be configured with the
    transcluder it is constructed with. *)
Definition configured_transcluder (transcluder : transcluder_object)
    : string → result (list string) :=
  transclude_method transcluder.

(** [load(readable, transcluder=VDFDisabledTranscluder())].  [None]
    stands for an omitted argument.  From the source: the default
    argument, the constructor call, the chunks read and fed in turn
    inside the [with] block, and [decoder.object] returned.  Modelled
    from the spec, as the source does not have them: the parser that
    [feed] and the [with] block run ([decode]), and that this parser
    resolves directives with [transcluder] ([configured_transcluder]);
    what [load] gives on a text with a directive rests on the latter. *)
Definition load (fuel : nat) (readable : text)
    (transcluder : option transcluder_object) : outcome pyobject :=
  let transcluder :=
    default (TranscluderObject DisabledTranscluder) transcluder in
  match decode (configured_transcluder transcluder) fuel (chunks_of readable)
          (VDFObjectDecoder.new transcluder) with
  | Done (Ok decoder) =>
      Done (Ok (VDFObjectDecoder.store (sub decoder),
                VDFObjectDecoder.object (sub decoder)))
  | Done (Raise e) => Done (Raise e)
  | OutOfFuel => OutOfFuel
  end.

(** [loads(vdf, transcluder=VDFDisabledTranscluder())]:
    [return load(io.StringIO(vdf))]. *)
Definition loads (fuel : nat) (vdf : text)
    (transcluder : option transcluder_object) : outcome pyobject :=
  load fuel (StringIO vdf) None.

(** [dump(object_, writable)]: the body is the docstring alone; nothing
    is written to [writable]. *)
Definition dump (object_ : pyobject) (writable : text) : text :=
  writable.

(** [dumps(object_)]: [buffer_ = io.StringIO()], [dump(object_, buffer_)],
    [return buffer_.getvalue()]. *)
Definition dumps (object_ : pyobject) : text :=
  let buffer_ := StringIO [] in
  let buffer_ := dump object_ buffer_ in
  buffer_.

(** The document behind an object reference. *)
Definition document_of (o : pyobject) : option Node :=
  reify (length o.1) o.1 o.2.

(** Source text: a string between double quotes, and plain text. *)
Definition quoted (s : string) : text :=
  DQUOTE :: String.list_ascii_of_string s ++ [DQUOTE].

Definition plain (s : string) : text := String.list_ascii_of_string s.

(** ** Inputs and measures used in the statements *)

(** A registry on which [inc] is registered as ["x" "1"] and a line
    break. *)
Definition example_registry : VDFTestTranscluder :=
  TestTranscluder
    (<["inc" := String.string_of_list_ascii (quoted "x" ++ [SP] ++ quoted "1" ++ [LF])]> ∅).

(** The numbers of [on_object_enter] and of [on_object_exit] calls in a
    sequence of events. *)
Fixpoint enters (evs : list event) : nat :=
  match evs with
  | [] => 0
  | EnterObject :: evs' => Datatypes.S (enters evs')
  | _ :: evs' => enters evs'
  end.

Fixpoint exits (evs : list event) : nat :=
  match evs with
  | [] => 0
  | ExitObject :: evs' => Datatypes.S (exits evs')
  | _ :: evs' => exits evs'
  end.


(** [later x r r']: the scan [r'] of a buffer extended by [x] agrees with
    the scan [r] of the buffer: a complete item stays the same item, with
    [x] joined to the rest, and malformed input stays malformed. *)
Definition later {A} (x : text) (r r' : scan A) : Prop :=
  match r with
  | Got a rest => r' = Got a (rest ++ x)
  | NeedMore => True
  | Malformed => r' = Malformed
  end.

(** A decoder with [x] joined to its unconsumed buffer. *)
Definition more {S} (x : text) (d : VDFDecoder S) : VDFDecoder S :=
  with_buffer (buffer d ++ x) d.


(** A decoder that waits for input with no whitespace in front of its
    buffer, as [pump] leaves it. *)
Definition settled {S} `{!VDFDecoderHooks S}
    (resolve : string → result (list string)) (d : VDFDecoder S) : Prop :=
  step resolve d = Stalled ∧ skip_wsp (buffer d) = buffer d.


(** A text with a directive, an escape sequence and quoted tokens, and a
    way of cutting it that splits the directive, a token and the escape
    sequence. *)
Definition example_chunks : list text :=
  [ plain "#ba"; plain "se " ++ [DQUOTE] ++ plain "in"; plain "c" ++ [DQUOTE; LF; DQUOTE];
    plain "y" ++ [DQUOTE; SP; DQUOTE] ++ plain "2" ++ [BACKSLASH];
    [LOWER_N; DQUOTE]; [LF] ].


(** What the parser expects once a comment, if any, has ended. *)
Definition expected (st : parser_state) : expectation :=
  match st with
  | Expect m => m
  | InComment prior => prior
  end.

(** The parser and the tree-building decoder agree: the height of the
    nesting stack is the length of [_stack], which is not empty and has
    the root at its bottom, and a key is pending exactly when a value or
    a block is expected. *)
Definition tracks (d : VDFDecoder VDFObjectDecoder.t) : Prop :=
  nesting d = length (VDFObjectDecoder._stack (sub d))
  ∧ 1 ≤ nesting d
  ∧ VDFObjectDecoder._stack (sub d) !! 0 = Some (VDFObjectDecoder.object (sub d))
  ∧ match expected (state d) with
    | ExpectKeyOrClose => VDFObjectDecoder._key (sub d) = KNone
    | ExpectValueOrBlock => ∃ k, VDFObjectDecoder._key (sub d) = KStr k
    end.

(** The input of the unbalanced example: ["root" { "a" "1"]. *)
Definition unbalanced_text : text :=
  quoted "root" ++ plain " { " ++ quoted "a" ++ [SP] ++ quoted "1".


(** The source text of a transclusion directive: [#base], quoted or
    not, whitespace [ws1], the name between double quotes, whitespace
    [ws2] and a line break. *)
Definition directive (quoted_base : bool) (ws1 name_source ws2 : text) : text :=
  (if quoted_base then DQUOTE :: BASE ++ [DQUOTE] else BASE)
  ++ ws1 ++ DQUOTE :: name_source ++ DQUOTE :: ws2 ++ [LF].

(** A transcluder whose fragments hold no text. *)
Definition quiet (resolve : string → result (list string)) : Prop :=
  ∀ name fragments, resolve name = Ok fragments → splice fragments = [].


(** The inputs of the duplicate-key examples: ["a" "1" "a" "2"], the
    same inside a block, and ["a" "1" "b" "2" "a" "3"]. *)
Definition duplicate_text : text :=
  quoted "a" ++ [SP] ++ quoted "1" ++ [SP] ++ quoted "a" ++ [SP] ++ quoted "2".

Definition nested_duplicate_text : text :=
  quoted "o" ++ plain " { " ++ duplicate_text ++ plain " }".

Definition reordered_text : text :=
  quoted "a" ++ [SP] ++ quoted "1" ++ [SP] ++ quoted "b" ++ [SP] ++ quoted "2"
  ++ [SP] ++ quoted "a" ++ [SP] ++ quoted "3".

(** The input of the transclusion example: [#base "inc"], a line break,
    ["y" "2"], a line break. *)
Definition transclusion_text : text :=
  plain "#base " ++ quoted "inc" ++ [LF] ++ quoted "y" ++ [SP] ++ quoted "2" ++ [LF].

(** The input ["a" "1"] and a line break. *)
Definition pair_text : text := quoted "a" ++ [SP] ++ quoted "1" ++ [LF].


(** ** Further definitions used in the statements *)

(** A call on a [VDFTestTranscluder] that changes its registry. *)
Inductive registry_op : Type :=
  | Register (name document : string)
  | Unregister (name : string).

Definition op_name (op : registry_op) : string :=
  match op with
  | Register name _ => name
  | Unregister name => name
  end.

Definition perform (op : registry_op) : method VDFTestTranscluder unit :=
  match op with
  | Register name document => register name document
  | Unregister name => unregister name
  end.

(** The exception classes: [class VDFError(Exception)] and
    [class VDFTransclusionError(Exception)] of the module, and the
    built-in [LookupError] and [IndexError], where [IndexError] is a
    subclass of [LookupError]. *)
Inductive pyclass : Type :=
  | ClsException
  | ClsLookupError
  | ClsIndexError
  | ClsVDFError
  | ClsVDFTransclusionError.

#[export] Instance pyclass_eq_dec : EqDecision pyclass.
Proof. solve_decision. Defined.

(** The base class in the [class] statement. *)
Definition base (c : pyclass) : option pyclass :=
  match c with
  | ClsException => None
  | ClsLookupError => Some ClsException
  | ClsIndexError => Some ClsLookupError
  | ClsVDFError => Some ClsException
  | ClsVDFTransclusionError => Some ClsException
  end.

(** A class and its ancestors; no chain of bases is longer than
    [bound]. *)
Fixpoint ancestors (bound : nat) (c : pyclass) : list pyclass :=
  match bound with
  | 0 => [c]
  | Datatypes.S bound' =>
      c :: match base c with
           | Some b => ancestors bound' b
           | None => []
           end
  end.

Definition class_of (e : exn) : pyclass :=
  match e with
  | VDFError _ => ClsVDFError
  | VDFTransclusionError _ => ClsVDFTransclusionError
  | LookupError _ => ClsLookupError
  | IndexError _ => ClsIndexError
  end.

(** [except handler:] catches [e]: [isinstance(e, handler)]. *)
Definition catches (handler : pyclass) (e : exn) : bool :=
  bool_decide (handler ∈ ancestors 4 (class_of e)).


(** The store of a decoder is well formed: the addresses on the stack
    and the address of the root are allocated, and a dictionary refers
    only to dictionaries allocated after it. *)
Definition well_formed (self : VDFObjectDecoder.t) : Prop :=
  Forall (λ a, a < length (VDFObjectDecoder.store self))
    (VDFObjectDecoder._stack self)
  ∧ (∀ (a : addr) (d : pydict) (k : pykey) (b : addr),
       VDFObjectDecoder.store self !! a = Some d → (k, VRef b) ∈ d →
       a < b ∧ b < length (VDFObjectDecoder.store self))
  ∧ VDFObjectDecoder.object self < length (VDFObjectDecoder.store self).


(** A well-nested stream of events, as a tree: a key with a scalar, or a
    key with a block of further items. *)
Unset Elimination Schemes.
Inductive item : Type :=
  | Pair (key value : string)
  | Block (key : string) (body : list item).
Set Elimination Schemes.

(** The callbacks a parser makes for an item: [on_key], then [on_value],
    or [on_object_enter], the callbacks of the body and
    [on_object_exit]. *)
Fixpoint item_events (i : item) : list event :=
  match i with
  | Pair k v => [Key k; Value v]
  | Block k body =>
      Key k :: EnterObject :: concat (map item_events body) ++ [ExitObject]
  end.

Definition events_of (body : list item) : list event :=
  concat (map item_events body).

(** [d[k] = n] on a dictionary of nodes: an ordered mapping in which a
    key that is present keeps its place. *)
Fixpoint node_setitem (k : pykey) (n : Node) (es : list (pykey * Node))
    : list (pykey * Node) :=
  match es with
  | [] => [(k, n)]
  | (k', n') :: es' =>
      if decide (k' = k) then (k', n) :: es'
      else (k', n') :: node_setitem k n es'
  end.

(** The mapping that the items of a block describe: each item is
    assigned in turn to the mapping built so far. *)
Fixpoint item_node (i : item) : pykey * Node :=
  match i with
  | Pair k v => (KStr k, Scalar v)
  | Block k body =>
      (KStr k,
       Object (fold_left (fun es j => node_setitem (item_node j).1 (item_node j).2 es)
                 body []))
  end.

Definition assign (es : list (pykey * Node)) (i : item) : list (pykey * Node) :=
  node_setitem (item_node i).1 (item_node i).2 es.

Definition entries_of (body : list item) : list (pykey * Node) :=
  fold_left assign body [].

(** One entry of a dictionary read out of the store, as [reify] reads
    it. *)
Definition reify_entry (fuel : nat) (h : list pydict) (kv : pykey * pyval)
    : option (pykey * Node) :=
  match kv.2 with
  | VStr s => Some (kv.1, Scalar s)
  | VRef b => n ← reify fuel h b; Some (kv.1, n)
  end.

(** The dictionary [d] stands for the entries [es] in the store [h]. *)
Definition dict_denotes (h : list pydict) (d : pydict) (es : list (pykey * Node))
    : Prop :=
  ∃ fuel, mapM (reify_entry fuel h) d = Some es.

(** The events [evs], run with the dictionary at [t] on top of the
    stack, turn the entries [es] that it stands for into [F es]: no call
    raises, the stack is as before, and no other dictionary that was in
    the store has changed. *)
Definition builds (evs : list event)
    (F : list (pykey * Node) → list (pykey * Node)) : Prop :=
  ∀ (s : VDFObjectDecoder.t) (t : addr) (d : pydict) (es : list (pykey * Node)),
    well_formed s →
    last (VDFObjectDecoder._stack s) = Some t →
    VDFObjectDecoder.store s !! t = Some d →
    dict_denotes (VDFObjectDecoder.store s) d es →
    ∃ s' d',
      run_events evs s = (Ok tt, s')
      ∧ VDFObjectDecoder._stack s' = VDFObjectDecoder._stack s
      ∧ length (VDFObjectDecoder.store s) ≤ length (VDFObjectDecoder.store s')
      ∧ (∀ a, a < length (VDFObjectDecoder.store s) → a ≠ t →
              VDFObjectDecoder.store s' !! a = VDFObjectDecoder.store s !! a)
      ∧ VDFObjectDecoder.store s' !! t = Some d'
      ∧ dict_denotes (VDFObjectDecoder.store s') d' (F es).

(** [needle] occurs in [haystack] as a run of consecutive characters. *)
Definition contains (needle haystack : text) : Prop :=
  ∃ before after, haystack = before ++ needle ++ after.

(** The text [#base "inc"]. *)
Definition base_inc_text : text := plain "#base " ++ quoted "inc".

(** Three texts that contain [#base "inc"]: in a comment line, after a
    key (where a value is expected) with a pair after it, and alone
    without a line break. *)
Definition commented_directive_text : text :=
  plain "/ " ++ base_inc_text ++ [LF].

Definition value_position_text : text :=
  quoted "k" ++ [SP] ++ base_inc_text ++ [SP] ++ quoted "v" ++ [LF].

Definition unterminated_directive_text : text := base_inc_text.

(** * Properties *)

(** ** The registry-backed transcluder *)

(** C7. For [VDFTestTranscluder]: [transclude(name)] yields the document
    registered under exactly [name], and raises [VDFTransclusionError]
    ("No document with name ...") when [name] is not registered;
    [register(name, document)] raises [LookupError] when [name] is
    already registered and otherwise binds [name] to [document] and
    nothing else; [unregister(name)] raises [LookupError] when [name] is
    not registered and otherwise removes [name] and nothing else; a call
    that raises leaves the registry as it was. *)
Theorem test_transcluder_registry (self : VDFTestTranscluder) (name document : string) :
  (∀ registered, _documents self !! name = Some registered →
     transclude self name = Ok [registered]
     ∧ is_lookup_error (register name document self).1
     ∧ (register name document self).2 = self
     ∧ (unregister name self).1 = Ok tt
     ∧ _documents (unregister name self).2 !! name = None
     ∧ (∀ other, other ≠ name →
          _documents (unregister name self).2 !! other = _documents self !! other))
  ∧ (_documents self !! name = None →
     transclude self name = Raise (VDFTransclusionError (no_document name))
     ∧ is_lookup_error (unregister name self).1
     ∧ (unregister name self).2 = self
     ∧ (register name document self).1 = Ok tt
     ∧ transclude (register name document self).2 name = Ok [document]
     ∧ (∀ other, other ≠ name →
          _documents (register name document self).2 !! other = _documents self !! other)).
Proof.
  split.
  - intros registered Hin.
    unfold transclude, test_transclude, register, unregister, is_lookup_error.
    rewrite Hin; simpl.
    repeat split; eauto.
    + apply lookup_delete_eq.
    + intros other Hne. by apply lookup_delete_ne.
  - intros Hout.
    unfold transclude, test_transclude, register, unregister, is_lookup_error.
    rewrite Hout; simpl.
    repeat split; eauto.
    + by rewrite lookup_insert_eq.
    + intros other Hne. by apply lookup_insert_ne.
Qed.

Lemma test_transcluder_registry_witness :
  transclude example_registry "inc"
  = Ok [String.string_of_list_ascii (quoted "x" ++ [SP] ++ quoted "1" ++ [LF])]
  ∧ transclude example_registry "other"
    = Raise (VDFTransclusionError "No document with name 'other'").
Proof.
  split.
  - apply (proj1 (test_transcluder_registry example_registry "inc" "doc")).
    reflexivity.
  - apply (proj2 (test_transcluder_registry example_registry "other" "doc")).
    reflexivity.
Defined.

(** ** The tree-building decoder under arbitrary events *)

Lemma run_events_app (l1 l2 : list event) (self : VDFObjectDecoder.t) :
  run_events (l1 ++ l2) self =
  match run_events l1 self with
  | (Ok _, self') => run_events l2 self'
  | (Raise x, self') => (Raise x, self')
  end.
Proof.
  revert self. induction l1 as [|e l1 IH]; intros self; simpl; [done|].
  destruct (call e self) as [[[]|x] self']; [apply IH | done].
Qed.

Lemma run_events_snoc (l : list event) (e : event) (self : VDFObjectDecoder.t) :
  run_events (l ++ [e]) self =
  match run_events l self with
  | (Ok _, self') => call e self'
  | (Raise x, self') => (Raise x, self')
  end.
Proof.
  rewrite run_events_app. destruct (run_events l self) as [[[]|x] self']; [|done].
  simpl. by destruct (call e self') as [[[]|x] self''].
Qed.

Lemma enters_app (l1 l2 : list event) : enters (l1 ++ l2) = enters l1 + enters l2.
Proof. induction l1 as [|[] l1 IH]; simpl; lia. Qed.

Lemma exits_app (l1 l2 : list event) : exits (l1 ++ l2) = exits l1 + exits l2.
Proof. induction l1 as [|[] l1 IH]; simpl; lia. Qed.

Lemma length_removelast_pred {A} (l : list A) :
  length (removelast l) = pred (length l).
Proof.
  destruct l as [|x l _] using rev_ind; [done|].
  rewrite removelast_last, length_app. simpl. lia.
Qed.

Lemma last_is_Some_nonempty {A} (l : list A) : l ≠ [] → is_Some (last l).
Proof.
  destruct l as [|a l] using rev_ind; [done|]. intros _.
  rewrite last_snoc. eauto.
Qed.

Lemma on_object_exit_nonempty (self : VDFObjectDecoder.t) :
  VDFObjectDecoder._stack self ≠ [] →
  VDFObjectDecoder.on_object_exit self =
  (Ok tt,
   VDFObjectDecoder.Make (VDFObjectDecoder.store self) (VDFObjectDecoder.object self)
     (VDFObjectDecoder._key self) (removelast (VDFObjectDecoder._stack self))).
Proof.
  unfold VDFObjectDecoder.on_object_exit.
  by destruct (VDFObjectDecoder._stack self).
Qed.

(** Under events whose every prefix has at least as many enters as
    exits, the decoder never raises, and its stack is the stack it
    started with followed by one entry per object still open. *)
Lemma balanced_run (evs : list event) (self : VDFObjectDecoder.t) :
  VDFObjectDecoder._stack self ≠ [] →
  (∀ p q, evs = p ++ q → exits p ≤ enters p) →
  ∃ self' ext,
    run_events evs self = (Ok tt, self')
    ∧ VDFObjectDecoder._stack self' = VDFObjectDecoder._stack self ++ ext
    ∧ length ext + exits evs = enters evs
    ∧ VDFObjectDecoder.object self' = VDFObjectDecoder.object self.
Proof.
  intros Hne. induction evs as [|e evs IH] using rev_ind; intros Hbal.
  - exists self, []. simpl. by rewrite app_nil_r.
  - destruct IH as (s1 & ext & Hrun & Hst & Hlen & Hobj).
    { intros p q ->. apply (Hbal p (q ++ [e])). by rewrite app_assoc. }
    rewrite run_events_snoc, Hrun.
    assert (Hwhole : exits (evs ++ [e]) ≤ enters (evs ++ [e])).
    { apply (Hbal (evs ++ [e]) []). by rewrite app_nil_r. }
    rewrite enters_app, exits_app in *.
    assert (Htop : is_Some (last (VDFObjectDecoder._stack s1))).
    { apply last_is_Some_nonempty. rewrite Hst. by destruct (VDFObjectDecoder._stack self). }
    destruct Htop as [top Htop].
    destruct e; simpl in *.
    + unfold VDFObjectDecoder.on_object_enter. rewrite Htop.
      eexists _, (ext ++ [_]). split; [done|]. simpl.
      rewrite Hst, length_app, <- app_assoc. simpl. repeat split; [lia | done].
    + unfold VDFObjectDecoder.on_object_exit.
      destruct (VDFObjectDecoder._stack s1) as [|a st] eqn:Est; [done|].
      destruct ext as [|x ext _] using rev_ind; [simpl in *; lia|].
      eexists _, ext. split; [done|]. cbn [VDFObjectDecoder._stack VDFObjectDecoder.object].
      rewrite length_app in Hlen. simpl in Hlen.
      rewrite Hst, app_assoc, removelast_last. repeat split; [lia | done].
    + eexists _, ext. split; [done|]. simpl. repeat split; [done | lia | done].
    + unfold VDFObjectDecoder.on_value. rewrite Htop.
      eexists _, ext. split; [done|]. simpl. repeat split; [done | lia | done].
Qed.

(** C10. [on_object_exit] pops the stack unconditionally.  Under every
    sequence of events in which each prefix has at least as many
    [on_object_enter] as [on_object_exit] calls, no call raises and the
    stack stays non-empty with the root, the [object] attribute, at its
    bottom.  But when [on_object_exit] is called with the root alone on
    the stack, the call succeeds and pops the root, and a following
    [on_value] or [on_object_enter] raises [IndexError] and leaves the
    decoder, the store of [object] included, as it was. *)
Theorem object_exit_pops_unconditionally :
  (∀ evs : list event,
     (∀ p q, evs = p ++ q → exits p ≤ enters p) →
     ∃ self,
       run_events evs VDFObjectDecoder.init = (Ok tt, self)
       ∧ VDFObjectDecoder._stack self ≠ []
       ∧ head (VDFObjectDecoder._stack self) = Some (VDFObjectDecoder.object self)
       ∧ VDFObjectDecoder.object self = VDFObjectDecoder.object VDFObjectDecoder.init
       ∧ length (VDFObjectDecoder._stack self) + exits evs = 1 + enters evs)
  ∧ (∀ self : VDFObjectDecoder.t,
       VDFObjectDecoder._stack self = [VDFObjectDecoder.object self] →
       ∃ popped,
         VDFObjectDecoder.on_object_exit self = (Ok tt, popped)
         ∧ VDFObjectDecoder._stack popped = []
         ∧ VDFObjectDecoder.store popped = VDFObjectDecoder.store self
         ∧ VDFObjectDecoder.object popped = VDFObjectDecoder.object self
         ∧ (∀ value,
              is_index_error (VDFObjectDecoder.on_value value popped).1
              ∧ (VDFObjectDecoder.on_value value popped).2 = popped)
         ∧ is_index_error (VDFObjectDecoder.on_object_enter popped).1
         ∧ (VDFObjectDecoder.on_object_enter popped).2 = popped
         ∧ is_index_error (VDFObjectDecoder.on_object_exit popped).1).
Proof.
  split.
  - intros evs Hbal.
    destruct (balanced_run evs VDFObjectDecoder.init) as (self & ext & Hrun & Hst & Hlen & Hobj);
      [done | done |].
    exists self. rewrite Hst, Hobj. simpl. repeat split; [done.. | lia].
  - intros self Hst. unfold VDFObjectDecoder.on_object_exit. rewrite Hst.
    eexists. split; [done|]. simpl.
    unfold VDFObjectDecoder.on_value, VDFObjectDecoder.on_object_enter,
      VDFObjectDecoder.on_object_exit, is_index_error. simpl.
    repeat split; eauto.
Qed.

Lemma object_exit_pops_unconditionally_witness :
  (∃ self,
     run_events [Key "root"; EnterObject; Key "a"; Value "1"; ExitObject]
       VDFObjectDecoder.init = (Ok tt, self)
     ∧ VDFObjectDecoder._stack self ≠ [])
  ∧ (∃ popped,
       VDFObjectDecoder.on_object_exit VDFObjectDecoder.init = (Ok tt, popped)
       ∧ VDFObjectDecoder._stack popped = []).
Proof.
  split.
  - destruct (proj1 object_exit_pops_unconditionally
                [Key "root"; EnterObject; Key "a"; Value "1"; ExitObject])
      as (self & Hrun & Hne & _).
    + intros p q Heq.
      do 6 (destruct p as [|? p]; [simplify_eq/=; lia|]); simplify_eq/=.
    + by exists self.
  - destruct (proj2 object_exit_pops_unconditionally VDFObjectDecoder.init)
      as (popped & Hexit & Hst & _); [reflexivity|].
    by exists popped.
Defined.

(** ** Dictionaries *)

Lemma dict_getitem_setitem (k : pykey) (v : pyval) (d : pydict) :
  dict_getitem k (dict_setitem k v d) = Some v.
Proof.
  induction d as [|[k' v'] d IH]; simpl.
  - by rewrite decide_True.
  - destruct (decide (k' = k)) as [->|Hne]; simpl.
    + by rewrite decide_True.
    + by rewrite decide_False.
Qed.

Lemma dict_getitem_setitem_ne (k k' : pykey) (v : pyval) (d : pydict) :
  k' ≠ k → dict_getitem k' (dict_setitem k v d) = dict_getitem k' d.
Proof.
  intros Hne. induction d as [|[k0 v0] d IH]; simpl.
  - by rewrite decide_False.
  - destruct (decide (k0 = k)) as [->|Hk]; simpl.
    + by rewrite !decide_False.
    + by rewrite IH.
Qed.

Lemma dict_keys_setitem_present (k : pykey) (v : pyval) (d : pydict) :
  k ∈ dict_keys d → dict_keys (dict_setitem k v d) = dict_keys d.
Proof.
  unfold dict_keys. induction d as [|[k0 v0] d IH]; simpl.
  - by intros ?%elem_of_nil.
  - intros Hin. destruct (decide (k0 = k)) as [->|Hk]; simpl; [done|].
    f_equal. apply IH. apply elem_of_cons in Hin as [?|?]; [congruence | done].
Qed.

Lemma dict_keys_setitem_absent (k : pykey) (v : pyval) (d : pydict) :
  k ∉ dict_keys d → dict_keys (dict_setitem k v d) = dict_keys d ++ [k].
Proof.
  unfold dict_keys. induction d as [|[k0 v0] d IH]; simpl; [done|].
  intros Hout. apply not_elem_of_cons in Hout as [Hne Hout].
  rewrite decide_False by congruence. simpl. f_equal. by apply IH.
Qed.

(** ** The pending key *)

Lemma exits_keep_key (l : list event) (self self' : VDFObjectDecoder.t) :
  Forall (eq ExitObject) l →
  run_events l self = (Ok tt, self') →
  VDFObjectDecoder._key self' = VDFObjectDecoder._key self.
Proof.
  intros Hall. revert self. induction Hall as [|e l <- Hall IH]; intros self; simpl.
  - by intros [= <-].
  - unfold VDFObjectDecoder.on_object_exit.
    destruct (VDFObjectDecoder._stack self); [done|].
    intros Hrun. by apply IH in Hrun.
Qed.

Lemma pending_key_origin (evs : list event) (self self' : VDFObjectDecoder.t) (k : string) :
  VDFObjectDecoder._key self = KNone →
  run_events evs self = (Ok tt, self') →
  VDFObjectDecoder._key self' = KStr k →
  ∃ l1 l2, evs = l1 ++ Key k :: l2 ∧ Forall (eq ExitObject) l2.
Proof.
  intros Hinit. revert self'.
  induction evs as [|e evs IH] using rev_ind; intros self'.
  - simpl. intros [= <-]. congruence.
  - rewrite run_events_snoc.
    destruct (run_events evs self) as [[[]|x] s1] eqn:Hrun; [|done].
    destruct e; simpl.
    + unfold VDFObjectDecoder.on_object_enter.
      destruct (last (VDFObjectDecoder._stack s1)); [|done]. by intros [= <-].
    + unfold VDFObjectDecoder.on_object_exit.
      destruct (VDFObjectDecoder._stack s1); [done|]. intros [= <-]. simpl.
      intros Hk. destruct (IH s1 eq_refl Hk) as (l1 & l2 & -> & Hall).
      exists l1, (l2 ++ [ExitObject]). split.
      * by rewrite <- app_assoc.
      * apply Forall_app. by split; [|constructor].
    + intros [= <-]. simpl. intros [= ->]. by exists evs, [].
    + unfold VDFObjectDecoder.on_value.
      destruct (last (VDFObjectDecoder._stack s1)); [|done]. by intros [= <-].
Qed.

Lemma pending_key_kept (l1 l2 : list event) (self self' : VDFObjectDecoder.t) (k : string) :
  Forall (eq ExitObject) l2 →
  run_events (l1 ++ Key k :: l2) self = (Ok tt, self') →
  VDFObjectDecoder._key self' = KStr k.
Proof.
  intros Hall. rewrite run_events_app.
  destruct (run_events l1 self) as [[[]|x] s1]; [|done]. simpl.
  intros Hrun. by apply exits_keep_key in Hrun.
Qed.

(** C9. The pending key is set only between a key and its value or
    object.  [on_key(k)] sets the pending key to [k].  [on_value(v)] and
    [on_object_enter()] bind the pending key in the dictionary on top of
    the stack, to [v] or to a fresh empty dictionary that is pushed, and
    leave the pending key [None].  Hence after any events run on a new
    decoder the pending key is [k] exactly when the events end in
    [on_key(k)] followed by nothing but [on_object_exit] calls. *)
Theorem pending_key_between_key_and_value :
  (∀ (k : string) (self : VDFObjectDecoder.t),
     ∃ self',
       VDFObjectDecoder.on_key k self = (Ok tt, self')
       ∧ VDFObjectDecoder._key self' = KStr k
       ∧ VDFObjectDecoder.store self' = VDFObjectDecoder.store self
       ∧ VDFObjectDecoder._stack self' = VDFObjectDecoder._stack self)
  ∧ (∀ (v : string) (self : VDFObjectDecoder.t) (top : addr) (d : pydict),
       last (VDFObjectDecoder._stack self) = Some top →
       VDFObjectDecoder.store self !! top = Some d →
       ∃ self' d',
         VDFObjectDecoder.on_value v self = (Ok tt, self')
         ∧ VDFObjectDecoder._key self' = KNone
         ∧ VDFObjectDecoder._stack self' = VDFObjectDecoder._stack self
         ∧ VDFObjectDecoder.store self' !! top = Some d'
         ∧ d' = dict_setitem (VDFObjectDecoder._key self) (VStr v) d
         ∧ dict_getitem (VDFObjectDecoder._key self) d' = Some (VStr v))
  ∧ (∀ (self : VDFObjectDecoder.t) (top : addr) (d : pydict),
       last (VDFObjectDecoder._stack self) = Some top →
       VDFObjectDecoder.store self !! top = Some d →
       ∃ self' d' fresh,
         VDFObjectDecoder.on_object_enter self = (Ok tt, self')
         ∧ VDFObjectDecoder._key self' = KNone
         ∧ VDFObjectDecoder._stack self' = VDFObjectDecoder._stack self ++ [fresh]
         ∧ VDFObjectDecoder.store self !! fresh = None
         ∧ VDFObjectDecoder.store self' !! fresh = Some []
         ∧ VDFObjectDecoder.store self' !! top = Some d'
         ∧ d' = dict_setitem (VDFObjectDecoder._key self) (VRef fresh) d
         ∧ dict_getitem (VDFObjectDecoder._key self) d' = Some (VRef fresh))
  ∧ (∀ (evs : list event) (self : VDFObjectDecoder.t) (k : string),
       run_events evs VDFObjectDecoder.init = (Ok tt, self) →
       VDFObjectDecoder._key self = KStr k
       ↔ ∃ l1 l2, evs = l1 ++ Key k :: l2 ∧ Forall (eq ExitObject) l2).
Proof.
  split; [|split; [|split]].
  - intros k self. by eexists.
  - intros v self top d Htop Hd. unfold VDFObjectDecoder.on_value. rewrite Htop.
    eexists _, _. split; [done|]. simpl.
    rewrite list_lookup_alter_eq, Hd. simpl.
    repeat split. apply dict_getitem_setitem.
  - intros self top d Htop Hd. unfold VDFObjectDecoder.on_object_enter. rewrite Htop.
    eexists _, _, (length (VDFObjectDecoder.store self)). split; [done|]. simpl.
    assert (Hlt : top < length (VDFObjectDecoder.store self)) by by eapply lookup_lt_Some.
    rewrite list_lookup_alter_eq, list_lookup_alter_ne by lia.
    rewrite (lookup_app_l _ _ top), Hd by done. simpl.
    repeat split.
    + by apply lookup_ge_None.
    + by apply list_lookup_middle.
    + apply dict_getitem_setitem.
  - intros evs self k Hrun. split.
    + intros Hk. by apply (pending_key_origin evs VDFObjectDecoder.init self k).
    + intros (l1 & l2 & -> & Hall). by eapply pending_key_kept.
Qed.

Lemma pending_key_between_key_and_value_witness :
  (∃ self' d',
     VDFObjectDecoder.on_value "1"
       (VDFObjectDecoder.on_key "a" VDFObjectDecoder.init).2 = (Ok tt, self')
     ∧ VDFObjectDecoder._key self' = KNone
     ∧ VDFObjectDecoder.store self' !! 0 = Some d'
     ∧ d' = [(KStr "a", VStr "1")])
  ∧ (∃ self' d',
       VDFObjectDecoder.on_object_enter
         (VDFObjectDecoder.on_key "a" VDFObjectDecoder.init).2 = (Ok tt, self')
       ∧ VDFObjectDecoder._key self' = KNone
       ∧ VDFObjectDecoder._stack self' = [0; 1]
       ∧ VDFObjectDecoder.store self' !! 0 = Some d'
       ∧ d' = [(KStr "a", VRef 1)])
  ∧ VDFObjectDecoder._key
      (run_events [Key "k"; Value "v"; Key "a"] VDFObjectDecoder.init).2
    = KStr "a".
Proof.
  split_and!.
  - destruct (proj1 (proj2 pending_key_between_key_and_value) "1"
                (VDFObjectDecoder.on_key "a" VDFObjectDecoder.init).2 0 [])
      as (self' & d' & Hcall & Hkey & _ & Hstore & Hd & _);
      [reflexivity | reflexivity |].
    exists self', d'. by repeat split.
  - destruct (proj1 (proj2 (proj2 pending_key_between_key_and_value))
                (VDFObjectDecoder.on_key "a" VDFObjectDecoder.init).2 0 [])
      as (self' & d' & fresh & Hcall & Hkey & Hstack & _ & _ & Hstore & Hd & _);
      [reflexivity | reflexivity |].
    vm_compute in Hcall. injection Hcall as <-.
    vm_compute in Hstore. injection Hstore as <-.
    eexists _, _. split; [reflexivity|]. by repeat split.
  - apply (proj2 (proj2 (proj2 pending_key_between_key_and_value))
             [Key "k"; Value "v"; Key "a"]
             (run_events [Key "k"; Value "v"; Key "a"] VDFObjectDecoder.init).2
             "a" eq_refl).
    by exists [Key "k"; Value "v"], [].
Defined.

(** ** The tokenizer on a growing buffer *)

Lemma text_ind2 (P : text → Prop) :
  P [] →
  (∀ c, P [c]) →
  (∀ c e r, P r → P (e :: r) → P (c :: e :: r)) →
  ∀ s, P s.
Proof.
  intros H0 H1 H2 s.
  enough (P s ∧ ∀ c, P (c :: s)) as [? _] by done.
  induction s as [|e r [IH1 IH2]]; split; auto.
Qed.

Lemma skip_wsp_app_cons (s x r : text) (c : ascii) :
  skip_wsp s = c :: r → skip_wsp (s ++ x) = c :: r ++ x.
Proof.
  induction s as [|a s IH]; simpl; [done|].
  destruct (is_wsp a); [done|]. by intros [= -> ->].
Qed.

Lemma skip_wsp_app_nil (s x : text) :
  skip_wsp s = [] → skip_wsp (s ++ x) = skip_wsp x.
Proof.
  induction s as [|a s IH]; simpl; [done|].
  by destruct (is_wsp a).
Qed.

Lemma skip_wsp_skip_app (s x : text) :
  skip_wsp (skip_wsp s ++ x) = skip_wsp (s ++ x).
Proof.
  induction s as [|a s IH]; simpl; [done|].
  destruct (is_wsp a) eqn:Ha; [done|]. simpl. by rewrite Ha.
Qed.

Lemma skip_wsp_idemp (s : text) : skip_wsp (skip_wsp s) = skip_wsp s.
Proof.
  pose proof (skip_wsp_skip_app s []) as H. by rewrite !app_nil_r in H.
Qed.

Lemma skip_wsp_head (s r : text) (c : ascii) :
  skip_wsp s = c :: r → is_wsp c = false.
Proof.
  induction s as [|a s IH]; simpl; [done|].
  destruct (is_wsp a) eqn:Ha; [done|]. by intros [= <- _].
Qed.

Lemma skip_wsp_length (s : text) : length (skip_wsp s) ≤ length s.
Proof.
  induction s as [|a s IH]; simpl; [done|].
  destruct (is_wsp a); simpl; lia.
Qed.

Lemma later_scan_cons (x : text) (c : ascii) (r r' : scan text) :
  later x r r' → later x (scan_cons c r) (scan_cons c r').
Proof. destruct r; simpl; [by intros -> | done | by intros ->]. Qed.

Lemma scan_quoted_cons (c : ascii) (r : text) :
  scan_quoted (c :: r) =
  if decide (c = DQUOTE) then Got [] r
  else if decide (c = BACKSLASH) then
    match r with
    | [] => NeedMore
    | e :: r' =>
        match unescape e with
        | Some x => scan_cons x (scan_quoted r')
        | None => Malformed
        end
    end
  else scan_cons c (scan_quoted r).
Proof. done. Qed.

Lemma scan_unquoted_cons (c : ascii) (r : text) :
  scan_unquoted (c :: r) =
  if ends_unquoted c then Got [] (c :: r)
  else if decide (c = BACKSLASH) then
    match r with
    | [] => NeedMore
    | e :: r' =>
        match unescape e with
        | Some x => scan_cons x (scan_unquoted r')
        | None => Malformed
        end
    end
  else scan_cons c (scan_unquoted r).
Proof. done. Qed.

Lemma scan_quoted_later (s x : text) :
  later x (scan_quoted s) (scan_quoted (s ++ x)).
Proof.
  induction s as [|c|c e r IH1 IH2] using text_ind2.
  - done.
  - simpl. repeat case_decide; done.
  - change ((c :: e :: r) ++ x) with (c :: (e :: r) ++ x).
    rewrite (scan_quoted_cons c (e :: r)), (scan_quoted_cons c ((e :: r) ++ x)).
    destruct (decide (c = DQUOTE)); [done|].
    destruct (decide (c = BACKSLASH)).
    + simpl. destruct (unescape e); [by apply later_scan_cons | done].
    + by apply later_scan_cons.
Qed.

Lemma scan_unquoted_later (s x : text) :
  later x (scan_unquoted s) (scan_unquoted (s ++ x)).
Proof.
  induction s as [|c|c e r IH1 IH2] using text_ind2.
  - done.
  - simpl. destruct (ends_unquoted c); [done|]. repeat case_decide; done.
  - change ((c :: e :: r) ++ x) with (c :: (e :: r) ++ x).
    rewrite (scan_unquoted_cons c (e :: r)), (scan_unquoted_cons c ((e :: r) ++ x)).
    destruct (ends_unquoted c); [done|].
    destruct (decide (c = BACKSLASH)).
    + simpl. destruct (unescape e); [by apply later_scan_cons | done].
    + by apply later_scan_cons.
Qed.

Lemma scan_directive_later (s x : text) :
  later x (scan_directive s) (scan_directive (s ++ x)).
Proof.
  destruct s as [|c s]; [done|].
  unfold scan_directive. change ((c :: s) ++ x) with (c :: (s ++ x)). cbv iota.
  destruct (is_wsp c) eqn:Hc; [|done].
  change (c :: (s ++ x)) with ((c :: s) ++ x).
  destruct (skip_wsp (c :: s)) as [|q r] eqn:Hskip; [done|].
  rewrite (skip_wsp_app_cons _ x _ _ Hskip).
  case_decide; [|done].
  pose proof (scan_quoted_later r x) as Hq.
  destruct (scan_quoted r) as [name r'| |]; simpl in Hq; [|done|by rewrite Hq].
  rewrite Hq.
  destruct (skip_wsp r') as [|l r''] eqn:Hskip'; [done|].
  rewrite (skip_wsp_app_cons _ x _ _ Hskip').
  by case_decide.
Qed.

Lemma word_later (k q : bool) (x : text) (r r' : scan text) :
  later x r r' → later x (word k q r) (word k q r').
Proof.
  destruct r as [t rest| |]; simpl; [intros -> | done | by intros ->].
  simpl. destruct (k && bool_decide (t = BASE)).
  - apply scan_directive_later.
  - by destruct q.
Qed.

Lemma next_token_later (k : bool) (s x : text) :
  later x (next_token k s) (next_token k (s ++ x)).
Proof.
  unfold next_token.
  destruct (skip_wsp s) as [|c r] eqn:Hskip; [done|].
  rewrite (skip_wsp_app_cons _ x _ _ Hskip).
  repeat case_decide; try done.
  - apply word_later, scan_quoted_later.
  - apply word_later. change (c :: r ++ x) with ((c :: r) ++ x).
    apply scan_unquoted_later.
Qed.

Lemma next_token_skip (k : bool) (s x : text) :
  next_token k (skip_wsp s ++ x) = next_token k (s ++ x).
Proof. unfold next_token. by rewrite skip_wsp_skip_app. Qed.

Lemma drop_line_later (s x r : text) :
  drop_line s = Some r → drop_line (s ++ x) = Some (r ++ x).
Proof.
  induction s as [|c s IH]; simpl; [done|].
  case_decide; [by intros [= ->] | done].
Qed.

Lemma drop_line_skip (s x : text) :
  drop_line (skip_wsp s ++ x) = drop_line (s ++ x).
Proof.
  induction s as [|c s IH]; simpl; [done|].
  destruct (is_wsp c) eqn:Hc; [|done].
  rewrite IH. case_decide as Hlf; [|done].
  subst c. by vm_compute in Hc.
Qed.

(** ** The parser on a growing buffer *)

Section DecoderFacts.

Context {S : Type} `{!VDFDecoderHooks S}.
Variable resolve : string → result (list string).

Lemma with_buffer_id (d : VDFDecoder S) : with_buffer (buffer d) d = d.
Proof. by destruct d. Qed.

Lemma more_nil (d : VDFDecoder S) : more [] d = d.
Proof. unfold more. rewrite app_nil_r. apply with_buffer_id. Qed.

Lemma more_more (x y : text) (d : VDFDecoder S) :
  more y (more x d) = more (x ++ y) d.
Proof. unfold more, with_buffer. simpl. by rewrite app_assoc. Qed.

Lemma after_more (x rest : text) (r : result unit * S)
    (k : text → S → VDFDecoder S) (d1 : VDFDecoder S) :
  (∀ s, k (rest ++ x) s = more x (k rest s)) →
  after r (k rest) = Stepped d1 →
  after r (k (rest ++ x)) = Stepped (more x d1).
Proof.
  intros Hk. destruct r as [[[]|e] s]; simpl; [|done].
  intros [= <-]. by rewrite Hk.
Qed.

Lemma after_failed (rest rest' : text) (r : result unit * S)
    (k : text → S → VDFDecoder S) (e : exn) :
  after r (k rest) = Failed e → after r (k rest') = Failed e.
Proof. by destruct r as [[[]|e'] s]. Qed.

Lemma transition_later (m : expectation) (tok : token) (rest x : text)
    (d d1 : VDFDecoder S) :
  transition resolve m tok rest d = Stepped d1 →
  transition resolve m tok (rest ++ x) (more x d) = Stepped (more x d1).
Proof.
  unfold transition.
  destruct tok, m; simpl; try done;
    try (by intros [= <-]);
    try (apply (after_more x rest _ (fun b => Decoder _ _ b)); done).
  - case_decide; [done|].
    apply (after_more x rest _ (fun b => Decoder _ _ b)); done.
  - destruct (resolve name); [|done]. intros [= <-].
    unfold more, with_buffer. simpl. by rewrite app_assoc.
Qed.

Lemma transition_failed (m : expectation) (tok : token) (rest x : text)
    (d : VDFDecoder S) (e : exn) :
  transition resolve m tok rest d = Failed e →
  transition resolve m tok (rest ++ x) (more x d) = Failed e.
Proof.
  unfold transition.
  destruct tok, m; simpl; try done;
    try (apply (after_failed rest (rest ++ x) _ (fun b => Decoder _ _ b))).
  - case_decide; [done|].
    apply (after_failed rest (rest ++ x) _ (fun b => Decoder _ _ b)).
  - by destruct (resolve name).
Qed.

Lemma step_later (x : text) (d d1 : VDFDecoder S) :
  step resolve d = Stepped d1 →
  step resolve (more x d) = Stepped (more x d1).
Proof.
  unfold step. simpl. destruct (state d) as [m|prior].
  - pose proof (next_token_later (key_expected m) (buffer d) x) as Hl.
    destruct (next_token (key_expected m) (buffer d)) as [tok rest| |];
      simpl in Hl; [|done..].
    rewrite Hl. apply transition_later.
  - destruct (drop_line (buffer d)) as [rest|] eqn:Hd; [|done].
    rewrite (drop_line_later _ x _ Hd). by intros [= <-].
Qed.

Lemma step_failed (x : text) (d : VDFDecoder S) (e : exn) :
  step resolve d = Failed e → step resolve (more x d) = Failed e.
Proof.
  unfold step. simpl. destruct (state d) as [m|prior].
  - pose proof (next_token_later (key_expected m) (buffer d) x) as Hl.
    destruct (next_token (key_expected m) (buffer d)) as [tok rest| |];
      simpl in Hl; [|done|].
    + rewrite Hl. apply transition_failed.
    + by rewrite Hl.
  - by destruct (drop_line (buffer d)).
Qed.

(** Whitespace in front of the buffer does not change a move. *)
Lemma step_skip (b x : text) (d : VDFDecoder S) :
  step resolve (with_buffer (skip_wsp b ++ x) d)
  = step resolve (with_buffer (b ++ x) d).
Proof.
  unfold step. simpl. destruct (state d) as [m|prior].
  - rewrite next_token_skip.
    destruct (next_token (key_expected m) (b ++ x)) as [tok rest| |]; [|done..].
    unfold transition. by destruct tok, m.
  - by rewrite drop_line_skip.
Qed.

Lemma pump_skip (n : nat) (b x : text) (d : VDFDecoder S) :
  pump resolve n (with_buffer (skip_wsp b ++ x) d)
  = pump resolve n (with_buffer (b ++ x) d).
Proof.
  destruct n as [|n]; simpl; [done|].
  rewrite step_skip.
  destruct (step resolve (with_buffer (b ++ x) d)); [done| |done].
  unfold with_buffer. simpl. by rewrite skip_wsp_skip_app.
Qed.

Lemma pump_S (n : nat) (d : VDFDecoder S) :
  pump resolve (Datatypes.S n) d =
  match step resolve d with
  | Stepped d' => pump resolve n d'
  | Stalled => Done (Ok (with_buffer (skip_wsp (buffer d)) d))
  | Failed e => Done (Raise e)
  end.
Proof. done. Qed.

(** More fuel does not change an outcome. *)
Lemma pump_mono (n m : nat) (d : VDFDecoder S) (r : result (VDFDecoder S)) :
  pump resolve n d = Done r → n ≤ m → pump resolve m d = Done r.
Proof.
  revert m d. induction n as [|n IH]; intros m d; simpl; [done|].
  intros Hp Hle. destruct m as [|m]; [lia|]. simpl.
  destruct (step resolve d); [|done..].
  apply IH; [done | lia].
Qed.

Lemma pump_settled (n : nat) (d d1 : VDFDecoder S) :
  pump resolve n d = Done (Ok d1) → settled resolve d1.
Proof.
  revert d. induction n as [|n IH]; intros d; simpl; [done|].
  destruct (step resolve d) as [d'| |e] eqn:Hs; [apply IH| |done].
  intros [= <-]. split.
  - pose proof (step_skip (buffer d) [] d) as Hk.
    rewrite !app_nil_r, with_buffer_id in Hk. by rewrite Hk.
  - simpl. apply skip_wsp_idemp.
Qed.

Lemma pump_of_settled (n : nat) (d : VDFDecoder S) :
  settled resolve d → pump resolve (Datatypes.S n) d = Done (Ok d).
Proof.
  intros [Hs Hb]. simpl. rewrite Hs, Hb. by rewrite with_buffer_id.
Qed.

(** Feeding a buffer in two parts: what a single run on the whole
    gives is what the run on the second part gives after the run on
    the first. *)
Lemma pump_split (n : nat) (x : text) (d : VDFDecoder S)
    (r : result (VDFDecoder S)) :
  pump resolve n (more x d) = Done r →
  match pump resolve n d with
  | Done (Ok d1) => feed resolve n x d1 = Done r
  | Done (Raise e) => r = Raise e
  | OutOfFuel => False
  end.
Proof.
  revert d. induction n as [|n IH]; intros d; simpl; [done|].
  destruct (step resolve d) as [d'| |e] eqn:Hs.
  - rewrite (step_later x _ _ Hs). intros Hp. apply IH in Hp.
    destruct (pump resolve n d') as [[d1|e]|]; [|done..].
    unfold feed in *. eapply pump_mono; [done | lia].
  - intros Hp. unfold feed. simpl buffer.
    change (with_buffer (skip_wsp (buffer d) ++ x) (with_buffer (skip_wsp (buffer d)) d))
      with (with_buffer (skip_wsp (buffer d) ++ x) d).
    rewrite pump_skip. exact Hp.
  - rewrite (step_failed x _ _ Hs). by intros [= <-].
Qed.

(** The converse, with the moves counted: a run that stalls at [d1]
    after [k] moves is the first [k] moves of any run on a longer
    buffer. *)
Lemma pump_resume (n : nat) (d d1 : VDFDecoder S) :
  pump resolve n d = Done (Ok d1) →
  ∃ k, k < n ∧ ∀ x m,
    pump resolve (k + m) (more x d) = pump resolve m (more x d1).
Proof.
  revert d. induction n as [|n IH]; intros d; simpl; [done|].
  destruct (step resolve d) as [d'| |e] eqn:Hs; [| |done].
  - intros Hp. destruct (IH _ Hp) as (k & Hk & Hres).
    exists (Datatypes.S k). split; [lia|]. intros x m. simpl.
    by rewrite (step_later x _ _ Hs).
  - intros [= <-]. exists 0. split; [lia|]. intros x m. simpl.
    unfold more. simpl buffer.
    change (with_buffer (skip_wsp (buffer d) ++ x) (with_buffer (skip_wsp (buffer d)) d))
      with (with_buffer (skip_wsp (buffer d) ++ x) d).
    by rewrite pump_skip.
Qed.

Lemma init_settled (s : S) : settled resolve (VDFDecoder_init s).
Proof. done. Qed.

Lemma feed_settled (n : nat) (x : text) (d d1 : VDFDecoder S) :
  feed resolve n x d = Done (Ok d1) → settled resolve d1.
Proof. apply pump_settled. Qed.

(** Feeding the chunks of a text one after the other gives what
    feeding the text at once gives. *)
Lemma feed_all_concat (n : nat) (chunks : list text) (d : VDFDecoder S)
    (r : result (VDFDecoder S)) :
  settled resolve d →
  feed resolve n (concat chunks) d = Done r →
  feed_all resolve n chunks d = Done r.
Proof.
  revert d. induction chunks as [|c chunks IH]; intros d Hd; simpl.
  - unfold feed. fold (more [] d). rewrite more_nil.
    destruct n as [|n]; [done|]. by rewrite pump_of_settled.
  - change (feed resolve n (c ++ concat chunks) d)
      with (pump resolve n (more (c ++ concat chunks) d)).
    change (feed resolve n c d) with (pump resolve n (more c d)).
    rewrite <- more_more. intros Hp. apply pump_split in Hp.
    destruct (pump resolve n (more c d)) as [[d1|e]|] eqn:Hf; [|by subst|done].
    apply IH; [by eapply pump_settled | done].
Qed.

Lemma decode_chunks (n : nat) (chunks : list text) (s : S)
    (r : result (VDFDecoder S)) :
  decode resolve n [concat chunks] s = Done r →
  decode resolve n chunks s = Done r.
Proof.
  unfold decode. simpl.
  destruct (feed resolve n (concat chunks) (VDFDecoder_init s)) as [r1|] eqn:Hf;
    [|done].
  apply feed_all_concat in Hf; [|apply init_settled].
  rewrite Hf. by destruct r1.
Qed.

Lemma pump_raise_later (n : nat) (x : text) (d : VDFDecoder S) (e : exn) :
  pump resolve n d = Done (Raise e) →
  pump resolve n (more x d) = Done (Raise e).
Proof.
  revert d. induction n as [|n IH]; intros d; simpl; [done|].
  destruct (step resolve d) as [d'| |e'] eqn:Hs; [|done|].
  - rewrite (step_later x _ _ Hs). apply IH.
  - by rewrite (step_failed x _ _ Hs).
Qed.

(** Conversely, what feeding the chunks gives is what feeding the text
    at once gives, with enough fuel. *)
Lemma feed_all_single (n : nat) (chunks : list text) (d : VDFDecoder S)
    (r : result (VDFDecoder S)) :
  settled resolve d →
  feed_all resolve n chunks d = Done r →
  ∃ m, ∀ m', m ≤ m' → feed resolve m' (concat chunks) d = Done r.
Proof.
  revert d. induction chunks as [|c chunks IH]; intros d Hd; simpl.
  - intros [= <-]. exists 1. intros m' Hm'.
    change (feed resolve m' [] d) with (pump resolve m' (more [] d)).
    rewrite more_nil. destruct m' as [|m']; [lia|]. by apply pump_of_settled.
  - change (feed resolve n c d) with (pump resolve n (more c d)).
    destruct (pump resolve n (more c d)) as [[d1|e]|] eqn:Hc; [| |done].
    + intros Hrest.
      destruct (IH d1 (pump_settled _ _ _ Hc) Hrest) as (m & Hm).
      destruct (pump_resume _ _ _ Hc) as (k & Hk & Hres).
      exists (k + m). intros m' Hm'.
      change (feed resolve m' (c ++ concat chunks) d)
        with (pump resolve m' (more (c ++ concat chunks) d)).
      rewrite <- more_more.
      replace m' with (k + (m' - k)) by lia.
      rewrite Hres. apply Hm. lia.
    + intros [= <-]. exists n. intros m' Hm'.
      change (feed resolve m' (c ++ concat chunks) d)
        with (pump resolve m' (more (c ++ concat chunks) d)).
      rewrite <- more_more. apply pump_raise_later.
      by apply (pump_mono n).
Qed.

Lemma decode_single (n : nat) (chunks : list text) (s : S)
    (r : result (VDFDecoder S)) :
  decode resolve n chunks s = Done r →
  ∃ m, ∀ m', m ≤ m' → decode resolve m' [concat chunks] s = Done r.
Proof.
  unfold decode.
  destruct (feed_all resolve n chunks (VDFDecoder_init s)) as [r1|] eqn:Hf;
    [|done].
  apply feed_all_single in Hf as (m & Hm); [|apply init_settled].
  intros Hr. exists m. intros m' Hm'. simpl. rewrite (Hm m' Hm').
  by destruct r1.
Qed.

End DecoderFacts.

(** ** Reading in chunks *)

Lemma read_chunks_concat (size bound : nat) (readable : text) :
  0 < size → length readable ≤ bound →
  concat (read_chunks size bound readable) = readable.
Proof.
  intros Hsize. revert readable.
  induction bound as [|bound IH]; intros readable Hlen; simpl.
  - by destruct readable; [|simpl in Hlen; lia].
  - unfold read. destruct (take size readable) as [|c chunk] eqn:Htake.
    + destruct readable as [|a readable]; [done|].
      destruct size; [lia | done].
    + simpl. rewrite IH.
      * rewrite app_comm_cons, <- Htake. apply take_drop.
      * rewrite length_drop.
        destruct readable; [by rewrite take_nil in Htake|]. simpl in *. lia.
Qed.

Lemma chunks_of_concat (readable : text) : concat (chunks_of readable) = readable.
Proof. apply read_chunks_concat; [lia | done]. Qed.

(** ** Chunk boundaries *)

(** C3. Chunk-boundary independence.  Whatever decoding a text [t] fed
    as a single chunk gives, a document in particular, decoding [t] fed
    as any sequence of chunks gives the same, with the same fuel for
    every [feed]; so does [load], which feeds [t] in chunks of 4096
    characters.  Conversely, what decoding the chunks gives is what
    decoding [t] as a single chunk gives with enough fuel. *)
Theorem chunk_boundary_independence
    (transcluder : transcluder_object) (fuel : nat) (t : text)
    (chunks : list text) (r : result (VDFDecoder VDFObjectDecoder.t)) :
  concat chunks = t →
  (decode (transclude_method transcluder) fuel [t] VDFObjectDecoder.init = Done r →
   decode (transclude_method transcluder) fuel chunks VDFObjectDecoder.init = Done r
   ∧ load fuel t (Some transcluder) =
     match r with
     | Ok d =>
         Done (Ok (VDFObjectDecoder.store (sub d), VDFObjectDecoder.object (sub d)))
     | Raise e => Done (Raise e)
     end)
  ∧ (decode (transclude_method transcluder) fuel chunks VDFObjectDecoder.init = Done r →
     ∃ enough, ∀ fuel', enough ≤ fuel' →
       decode (transclude_method transcluder) fuel' [t] VDFObjectDecoder.init
       = Done r).
Proof.
  intros <-. split.
  - intros Hone. split.
    + by apply decode_chunks.
    + unfold load. simpl.
      rewrite (decode_chunks _ fuel (chunks_of (concat chunks)) _ r).
      * by destruct r.
      * by rewrite chunks_of_concat.
  - apply decode_single.
Qed.

Lemma chunk_boundary_independence_witness :
  ∃ d,
    decode (transclude_method (TranscluderObject example_registry)) 100
      example_chunks VDFObjectDecoder.init = Done (Ok d)
    ∧ document (sub d)
      = Some (Object [(KStr "x", Scalar "1");
                      (KStr "y", Scalar (String "2" (String LF EmptyString)))])
    ∧ ∃ enough, ∀ fuel', enough ≤ fuel' →
        decode (transclude_method (TranscluderObject example_registry)) fuel'
          [concat example_chunks] VDFObjectDecoder.init = Done (Ok d).
Proof.
  eexists. split_and!.
  - apply (proj1 (chunk_boundary_independence (TranscluderObject example_registry)
                    100 (concat example_chunks) example_chunks _ eq_refl)).
    vm_compute. reflexivity.
  - vm_compute. reflexivity.
  - apply (proj2 (chunk_boundary_independence (TranscluderObject example_registry)
                    100 (concat example_chunks) example_chunks _ eq_refl)).
    vm_compute. reflexivity.
Defined.

(** ** Fuel *)

Section Fuel.

Context {S : Type} `{!VDFDecoderHooks S}.
Variable resolve : string → result (list string).

Lemma feed_mono (n m : nat) (x : text) (d : VDFDecoder S)
    (r : result (VDFDecoder S)) :
  feed resolve n x d = Done r → n ≤ m → feed resolve m x d = Done r.
Proof. apply pump_mono. Qed.

Lemma feed_all_mono (n m : nat) (chunks : list text) (d : VDFDecoder S)
    (r : result (VDFDecoder S)) :
  feed_all resolve n chunks d = Done r → n ≤ m →
  feed_all resolve m chunks d = Done r.
Proof.
  intros Hf Hle. revert d Hf.
  induction chunks as [|c chunks IH]; intros d; simpl; [done|].
  destruct (feed resolve n c d) as [r1|] eqn:Hc; [|done].
  rewrite (feed_mono _ _ _ _ _ Hc Hle).
  destruct r1; [apply IH | done].
Qed.

Lemma decode_mono (n m : nat) (chunks : list text) (s : S)
    (r : result (VDFDecoder S)) :
  decode resolve n chunks s = Done r → n ≤ m →
  decode resolve m chunks s = Done r.
Proof.
  unfold decode. intros Hd Hle.
  destruct (feed_all resolve n chunks (VDFDecoder_init s)) as [r1|] eqn:Hf;
    [|done].
  by rewrite (feed_all_mono _ _ _ _ _ Hf Hle).
Qed.

End Fuel.

Lemma load_mono (n m : nat) (readable : text)
    (transcluder : option transcluder_object) (r : result pyobject) :
  load n readable transcluder = Done r → n ≤ m →
  load m readable transcluder = Done r.
Proof.
  unfold load. intros Hl Hle.
  destruct (decode _ n _ _) as [r1|] eqn:Hd; [|done].
  by rewrite (decode_mono _ _ _ _ _ _ Hd Hle).
Qed.

(** ** The parser drives the tree-building decoder *)

Section Tracking.

Variable resolve : string → result (list string).

Lemma step_tracks (d d' : VDFDecoder VDFObjectDecoder.t) :
  tracks d → step resolve d = Stepped d' → tracks d'.
Proof.
  intros (Hn & Hpos & Hroot & Hkey). unfold step.
  destruct (state d) as [m|prior] eqn:Hst; simpl in Hkey.
  - destruct (next_token (key_expected m) (buffer d)) as [tok rest| |]; [|done..].
    assert (Htop : is_Some (last (VDFObjectDecoder._stack (sub d)))).
    { apply last_is_Some_nonempty. intros Hnil. rewrite Hnil in Hn. simpl in Hn. lia. }
    destruct Htop as [top Htop].
    unfold transition, tracks.
    destruct tok, m; try done;
      cbn [on_key on_value on_object_enter on_object_exit object_decoder_hooks];
      unfold VDFObjectDecoder.on_key, VDFObjectDecoder.on_value,
        VDFObjectDecoder.on_object_enter, VDFObjectDecoder.on_object_exit;
      rewrite ?Htop;
      cbn [after nesting sub state expected
             VDFObjectDecoder._stack VDFObjectDecoder._key VDFObjectDecoder.object];
      try (intros [= <-];
           cbn [nesting sub state expected
                  VDFObjectDecoder._stack VDFObjectDecoder._key VDFObjectDecoder.object];
           by eauto).
    + intros [= <-].
      cbn [nesting sub state expected
             VDFObjectDecoder._stack VDFObjectDecoder._key VDFObjectDecoder.object].
      rewrite length_app, lookup_app_l by lia. simpl.
      split_and!; [lia | lia | done | done].
    + case_decide; [done|].
      fold (VDFObjectDecoder.on_object_exit (sub d)).
      rewrite on_object_exit_nonempty
        by (intros Hnil; rewrite Hnil in Hn; simpl in Hn; lia).
      cbn [after]. intros [= <-].
      cbn [nesting sub state expected
             VDFObjectDecoder._stack VDFObjectDecoder._key VDFObjectDecoder.object].
      rewrite length_removelast_pred, <- Hn.
      split_and!; [done | lia | | done].
      rewrite removelast_firstn_len, lookup_take_lt by lia. done.
    + destruct (resolve name); [|done]. intros [= <-]. simpl. by eauto.
  - destruct (drop_line (buffer d)); [|done]. intros [= <-]. done.
Qed.

(** Under the parser the callbacks of the tree-building decoder do not
    raise: an aborted move is a format error or the transcluder's
    exception. *)
Lemma step_tracks_failed (d : VDFDecoder VDFObjectDecoder.t) (e : exn) :
  tracks d → step resolve d = Failed e →
  (∃ msg, e = VDFError msg) ∨ (∃ name, resolve name = Raise e).
Proof.
  intros (Hn & Hpos & Hroot & Hkey). unfold step.
  destruct (state d) as [m|prior] eqn:Hst; simpl in Hkey.
  - destruct (next_token (key_expected m) (buffer d)) as [tok rest| |];
      [|done|intros [= <-]; eauto].
    assert (Htop : is_Some (last (VDFObjectDecoder._stack (sub d)))).
    { apply last_is_Some_nonempty. intros Hnil. rewrite Hnil in Hn. simpl in Hn. lia. }
    destruct Htop as [top Htop].
    unfold transition.
    destruct tok, m; simpl; try done;
      unfold VDFObjectDecoder.on_value, VDFObjectDecoder.on_object_enter,
        VDFObjectDecoder.on_object_exit; rewrite ?Htop; simpl;
      try (intros [= <-]; by eauto).
    + case_decide; [intros [= <-]; by eauto|].
      by destruct (VDFObjectDecoder._stack (sub d)).
    + destruct (resolve name) eqn:Hr; [done|]. intros [= <-]. eauto.
  - by destruct (drop_line (buffer d)).
Qed.

Lemma pump_tracks (n : nat) (d d' : VDFDecoder VDFObjectDecoder.t) :
  tracks d → pump resolve n d = Done (Ok d') → tracks d'.
Proof.
  revert d. induction n as [|n IH]; intros d Hd; simpl; [done|].
  destruct (step resolve d) as [d1| |e] eqn:Hs; [| |done].
  - apply IH. by eapply step_tracks.
  - by intros [= <-].
Qed.

Lemma feed_all_tracks (n : nat) (chunks : list text)
    (d d' : VDFDecoder VDFObjectDecoder.t) :
  tracks d → feed_all resolve n chunks d = Done (Ok d') → tracks d'.
Proof.
  revert d. induction chunks as [|c chunks IH]; intros d Hd; simpl.
  - by intros [= <-].
  - destruct (feed resolve n c d) as [[d1|e]|] eqn:Hf; [|done..].
    apply IH. eapply pump_tracks; [|exact Hf]. done.
Qed.

Lemma init_tracks : tracks (VDFDecoder_init VDFObjectDecoder.init).
Proof. unfold tracks. simpl. split_and!; [done | lia | done | done]. Qed.

End Tracking.

(** ** Completion *)

Lemma complete_Ok {S} (d d' : VDFDecoder S) :
  complete d = Ok d' ↔
  d' = d ∧ state d = Expect ExpectKeyOrClose ∧ nesting d = 1
  ∧ skip_wsp (buffer d) = [].
Proof.
  unfold complete. split.
  - destruct (state d) as [[]|]; [|done..].
    case_decide; [|done].
    destruct (skip_wsp (buffer d)); [|done]. by intros [= <-].
  - intros (-> & -> & Hn & ->). by rewrite decide_True.
Qed.

Lemma complete_total {S} (d : VDFDecoder S) :
  complete d = Ok d ∨ is_format_error (complete d).
Proof.
  unfold complete, is_format_error.
  destruct (state d) as [[]|]; eauto.
  case_decide; eauto.
  destruct (skip_wsp (buffer d)); eauto.
Qed.

Lemma decode_Ok_tracks (resolve : string → result (list string)) (fuel : nat)
    (chunks : list text) (d : VDFDecoder VDFObjectDecoder.t) :
  decode resolve fuel chunks VDFObjectDecoder.init = Done (Ok d) →
  VDFObjectDecoder._stack (sub d) = [VDFObjectDecoder.object (sub d)]
  ∧ VDFObjectDecoder._key (sub d) = KNone.
Proof.
  unfold decode.
  destruct (feed_all resolve fuel chunks _) as [[d1|e]|] eqn:Hf; [|done..].
  intros [= Hc]. apply complete_Ok in Hc as (-> & Hst & Hn & _).
  apply feed_all_tracks in Hf as (Hlen & _ & Hroot & Hkey); [|apply init_tracks].
  rewrite Hst in Hkey. simpl in Hkey. split; [|done].
  rewrite Hn in Hlen.
  destruct (VDFObjectDecoder._stack (sub d1)) as [|a [|b st]]; simpl in *; [lia| |lia].
  by injection Hroot as ->.
Qed.

(** C4. The unbalanced input ["root" { "a" "1"] is fed without an
    error and leaves one block open, so that completion fails with a
    format error, and so does [load].  [complete()] succeeds exactly when
    the parser is in [ExpectKeyOrClose], the nesting stack has one entry
    and the buffer holds no partially consumed token; otherwise it raises
    a format error.  When decoding succeeds, the stack of the
    tree-building decoder holds the root alone and no key is pending. *)
Theorem unbalanced_input_fails_at_completion :
  (∀ (fuel : nat) (transcluder : option transcluder_object),
     5 ≤ fuel →
     ∃ d,
       feed_all (transclude_method
                   (default (TranscluderObject DisabledTranscluder) transcluder))
         fuel [unbalanced_text] (VDFDecoder_init VDFObjectDecoder.init) = Done (Ok d)
       ∧ state d = Expect ExpectKeyOrClose
       ∧ nesting d = 2
       ∧ buffer d = []
       ∧ complete d = Raise (VDFError "unterminated block")
       ∧ load fuel unbalanced_text transcluder
         = Done (Raise (VDFError "unterminated block")))
  ∧ (∀ d d' : VDFDecoder VDFObjectDecoder.t,
       complete d = Ok d' ↔
       d' = d ∧ state d = Expect ExpectKeyOrClose ∧ nesting d = 1
       ∧ skip_wsp (buffer d) = [])
  ∧ (∀ d : VDFDecoder VDFObjectDecoder.t,
       complete d = Ok d ∨ is_format_error (complete d))
  ∧ (∀ (transcluder : transcluder_object) (fuel : nat) (chunks : list text)
       (d : VDFDecoder VDFObjectDecoder.t),
       decode (transclude_method transcluder) fuel chunks VDFObjectDecoder.init
       = Done (Ok d) →
       VDFObjectDecoder._stack (sub d) = [VDFObjectDecoder.object (sub d)]
       ∧ VDFObjectDecoder._key (sub d) = KNone).
Proof.
  split_and!.
  - intros fuel transcluder Hfuel.
    set (tr := default (TranscluderObject DisabledTranscluder) transcluder).
    assert (Hfeed : ∃ d,
      feed_all (transclude_method tr) 5 [unbalanced_text]
        (VDFDecoder_init VDFObjectDecoder.init) = Done (Ok d)
      ∧ state d = Expect ExpectKeyOrClose ∧ nesting d = 2 ∧ buffer d = []
      ∧ complete d = Raise (VDFError "unterminated block")).
    { eexists. split; [vm_compute; reflexivity|]. by vm_compute. }
    destruct Hfeed as (d & Hfeed & Hst & Hn & Hb & Hc).
    assert (Hdec : decode (transclude_method tr) 5 [unbalanced_text]
                     VDFObjectDecoder.init
                   = Done (Raise (VDFError "unterminated block"))).
    { unfold decode. by rewrite Hfeed, Hc. }
    exists d. split_and!; try done.
    + by apply (feed_all_mono _ 5).
    + apply (load_mono 5); [|done]. unfold load. fold tr.
      rewrite (decode_chunks _ 5 (chunks_of unbalanced_text) _
                 (Raise (VDFError "unterminated block"))); [done|].
      rewrite chunks_of_concat. exact Hdec.
  - apply complete_Ok.
  - apply complete_total.
  - intros transcluder fuel chunks d. apply decode_Ok_tracks.
Qed.

Lemma unbalanced_input_fails_at_completion_witness :
  load 5 unbalanced_text None = Done (Raise (VDFError "unterminated block"))
  ∧ complete (VDFDecoder_init VDFObjectDecoder.init)
    = Ok (VDFDecoder_init VDFObjectDecoder.init)
  ∧ VDFObjectDecoder._key VDFObjectDecoder.init = KNone.
Proof.
  split_and!.
  - destruct (proj1 unbalanced_input_fails_at_completion 5 None)
      as (d & _ & _ & _ & _ & _ & Hload); [lia | exact Hload].
  - apply (proj1 (proj2 unbalanced_input_fails_at_completion)).
    by split_and!.
  - refine (proj2 (proj2 (proj2 (proj2 unbalanced_input_fails_at_completion))
                     (TranscluderObject DisabledTranscluder) 1 []
                     (VDFDecoder_init VDFObjectDecoder.init) _)).
    reflexivity.
Defined.

(** ** Tokens consume input *)

Lemma scan_cons_Got (c : ascii) (r : scan text) (t rest : text) :
  scan_cons c r = Got t rest → ∃ t', r = Got t' rest ∧ t = c :: t'.
Proof. destruct r; simpl; [|done..]. intros [= <- <-]. eauto. Qed.

Lemma scan_quoted_length (s t rest : text) :
  scan_quoted s = Got t rest → length rest < length s.
Proof.
  revert t. induction s as [|c|c e r IH1 IH2] using text_ind2; intros t.
  - done.
  - simpl. repeat case_decide; try done. intros [= _ <-]. simpl. lia.
  - rewrite scan_quoted_cons.
    destruct (decide (c = DQUOTE)); [intros [= _ <-]; simpl; lia|].
    destruct (decide (c = BACKSLASH)).
    + destruct (unescape e); [|done].
      intros (t' & Hr & _)%scan_cons_Got. apply IH1 in Hr. simpl. lia.
    + intros (t' & Hr & _)%scan_cons_Got. apply IH2 in Hr. simpl in *. lia.
Qed.

Lemma scan_unquoted_length (s t rest : text) :
  scan_unquoted s = Got t rest → length rest ≤ length s.
Proof.
  revert t. induction s as [|c|c e r IH1 IH2] using text_ind2; intros t.
  - done.
  - simpl. destruct (ends_unquoted c); [by intros [= _ <-]|].
    repeat case_decide; done.
  - rewrite scan_unquoted_cons.
    destruct (ends_unquoted c); [by intros [= _ <-]|].
    destruct (decide (c = BACKSLASH)).
    + destruct (unescape e); [|done].
      intros (t' & Hr & _)%scan_cons_Got. apply IH1 in Hr. simpl. lia.
    + intros (t' & Hr & _)%scan_cons_Got. apply IH2 in Hr. simpl in *. lia.
Qed.

Lemma scan_unquoted_length_lt (c : ascii) (r t rest : text) :
  ends_unquoted c = false →
  scan_unquoted (c :: r) = Got t rest → length rest < length (c :: r).
Proof.
  intros Hc. rewrite scan_unquoted_cons, Hc.
  destruct (decide (c = BACKSLASH)) as [Hb|Hb].
  - destruct r as [|e r]; [done|]. destruct (unescape e); [|done].
    intros (t' & Hr & _)%scan_cons_Got. apply scan_unquoted_length in Hr.
    simpl. lia.
  - intros (t' & Hr & _)%scan_cons_Got. apply scan_unquoted_length in Hr.
    simpl. lia.
Qed.

Lemma scan_directive_length (s rest : text) (tok : token) :
  scan_directive s = Got tok rest → length rest < length s.
Proof.
  unfold scan_directive. destruct s as [|c s]; [done|].
  destruct (is_wsp c); [|done].
  pose proof (skip_wsp_length (c :: s)) as Hskip.
  destruct (skip_wsp (c :: s)) as [|q r]; [done|].
  case_decide; [|done].
  destruct (scan_quoted r) as [name r'| |] eqn:Hq; [|done..].
  apply scan_quoted_length in Hq.
  pose proof (skip_wsp_length r') as Hskip'.
  destruct (skip_wsp r') as [|l r'']; [done|].
  case_decide; [|done]. intros [= _ <-]. simpl in *. lia.
Qed.

Lemma word_length (k q : bool) (r : scan text) (tok : token) (rest : text) (n : nat) :
  (∀ t rest', r = Got t rest' → length rest' < n) →
  word k q r = Got tok rest → length rest < n.
Proof.
  intros Hr. destruct r as [t rest'| |]; simpl; [|done..].
  specialize (Hr t rest' eq_refl).
  destruct (k && bool_decide (t = BASE)).
  - intros Hd%scan_directive_length. lia.
  - destruct q; by intros [= _ <-].
Qed.

Lemma next_token_length (k : bool) (s rest : text) (tok : token) :
  next_token k s = Got tok rest → length rest < length s.
Proof.
  unfold next_token.
  pose proof (skip_wsp_length s) as Hskip.
  destruct (skip_wsp s) as [|c r] eqn:Hs; [done|].
  apply skip_wsp_head in Hs. simpl in Hskip.
  destruct (decide (c = LF)); [intros [= _ <-]; lia|].
  destruct (decide (c = LBRACE)); [intros [= _ <-]; lia|].
  destruct (decide (c = RBRACE)); [intros [= _ <-]; lia|].
  destruct (decide (c = SLASH)); [intros [= _ <-]; lia|].
  destruct (decide (c = DQUOTE)).
  - apply word_length. intros t rest' Hq%scan_quoted_length. lia.
  - apply word_length. intros t rest' Hq.
    apply scan_unquoted_length_lt in Hq; [simpl in Hq; lia|].
    unfold ends_unquoted. rewrite Hs. simpl.
    by rewrite !bool_decide_eq_false_2.
Qed.

Lemma drop_line_length (s rest : text) :
  drop_line s = Some rest → length rest < length s.
Proof.
  induction s as [|c s IH]; simpl; [done|].
  case_decide; [intros [= <-]; lia|]. intros Hd%IH. lia.
Qed.

Section Quiet.

Context {S : Type} `{!VDFDecoderHooks S}.
Variable resolve : string → result (list string).
Hypothesis resolve_quiet : quiet resolve.

Lemma step_consumes (d d' : VDFDecoder S) :
  step resolve d = Stepped d' → length (buffer d') < length (buffer d).
Proof.
  unfold step. destruct (state d) as [m|prior].
  - destruct (next_token (key_expected m) (buffer d)) as [tok rest| |] eqn:Ht;
      [|done..].
    apply next_token_length in Ht. unfold transition.
    destruct tok, m; try done; try (by intros [= <-]);
      try (destruct (on_key _ _) as [[[]|] ?]; by intros [= <-]);
      try (destruct (on_value _ _) as [[[]|] ?]; by intros [= <-]);
      try (destruct (on_object_enter _) as [[[]|] ?]; by intros [= <-]).
    + case_decide; [done|].
      destruct (on_object_exit _) as [[[]|] ?]; by intros [= <-].
    + destruct (resolve name) as [fragments|] eqn:Hr; [|done].
      intros [= <-]. simpl. by rewrite (resolve_quiet _ _ Hr).
  - destruct (drop_line (buffer d)) as [rest|] eqn:Hd; [|done].
    apply drop_line_length in Hd. by intros [= <-].
Qed.

(** With a quiet transcluder the parser stops within as many moves as
    the buffer has characters. *)
Lemma pump_total (n : nat) (d : VDFDecoder S) :
  length (buffer d) < n → ∃ r, pump resolve n d = Done r.
Proof.
  revert d. induction n as [|n IH]; intros d Hlen; [lia|]. simpl.
  destruct (step resolve d) as [d'| |e] eqn:Hs; [|eauto..].
  apply IH. apply step_consumes in Hs. lia.
Qed.

End Quiet.

(** ** Transclusion directives *)

Lemma skip_wsp_blank (ws s : text) :
  forallb is_wsp ws = true → skip_wsp (ws ++ s) = skip_wsp s.
Proof.
  induction ws as [|c ws IH]; simpl; [done|].
  intros [Hc Hws]%andb_prop. rewrite Hc. by apply IH.
Qed.

Lemma scan_quoted_closed (source name rest : text) :
  scan_quoted (source ++ [DQUOTE]) = Got name [] →
  scan_quoted (source ++ DQUOTE :: rest) = Got name rest.
Proof.
  intros Hq. pose proof (scan_quoted_later (source ++ [DQUOTE]) rest) as Hl.
  rewrite Hq in Hl. simpl in Hl. by rewrite <- app_assoc in Hl.
Qed.

Lemma scan_directive_tail (ws1 source name ws2 post : text) :
  ws1 ≠ [] → forallb is_wsp ws1 = true → forallb is_wsp ws2 = true →
  scan_quoted (source ++ [DQUOTE]) = Got name [] →
  scan_directive (ws1 ++ DQUOTE :: source ++ DQUOTE :: ws2 ++ [LF] ++ post)
  = Got (TransclusionDirective (String.string_of_list_ascii name)) post.
Proof.
  intros Hne Hws1 Hws2 Hq. unfold scan_directive.
  destruct ws1 as [|c ws1]; [done|].
  pose proof Hws1 as [Hc _]%andb_prop.
  change ((c :: ws1) ++ ?x) with (c :: (ws1 ++ x)). cbv iota. rewrite Hc.
  change (c :: (ws1 ++ ?x)) with ((c :: ws1) ++ x).
  rewrite (skip_wsp_blank _ _ Hws1). simpl skip_wsp. cbv beta iota.
  rewrite decide_True by done.
  rewrite (scan_quoted_closed _ _ _ Hq).
  rewrite (skip_wsp_blank _ _ Hws2). simpl skip_wsp. cbv beta iota.
  by rewrite decide_True.
Qed.

Lemma next_token_base_quoted (rest : text) :
  next_token true (DQUOTE :: BASE ++ DQUOTE :: rest) = scan_directive rest.
Proof. done. Qed.

Lemma scan_unquoted_base (c : ascii) (rest : text) :
  is_wsp c = true →
  scan_unquoted (BASE ++ c :: rest) = Got BASE (c :: rest).
Proof. intros Hc. simpl. unfold ends_unquoted. by rewrite Hc. Qed.

Lemma next_token_base_unquoted (c : ascii) (rest : text) :
  is_wsp c = true →
  next_token true (BASE ++ c :: rest) = scan_directive (c :: rest).
Proof.
  intros Hc.
  transitivity (word true false (scan_unquoted (BASE ++ c :: rest))); [done|].
  by rewrite scan_unquoted_base.
Qed.

Lemma directive_app (q : bool) (ws1 source ws2 post : text) :
  directive q ws1 source ws2 ++ post =
  (if q then DQUOTE :: BASE ++ [DQUOTE] else BASE)
  ++ ws1 ++ DQUOTE :: source ++ DQUOTE :: ws2 ++ [LF] ++ post.
Proof.
  unfold directive.
  by repeat (rewrite <- app_assoc || rewrite <- app_comm_cons).
Qed.

(** Where a key is expected, the text of a directive is read as one
    token. *)
Lemma next_token_directive (q : bool) (ws1 source name ws2 post : text) :
  ws1 ≠ [] → forallb is_wsp ws1 = true → forallb is_wsp ws2 = true →
  scan_quoted (source ++ [DQUOTE]) = Got name [] →
  next_token true (directive q ws1 source ws2 ++ post)
  = Got (TransclusionDirective (String.string_of_list_ascii name)) post.
Proof.
  intros Hne Hws1 Hws2 Hq.
  pose proof (scan_directive_tail ws1 source name ws2 post Hne Hws1 Hws2 Hq) as Hd.
  rewrite directive_app. destruct q.
  - rewrite <- app_comm_cons, <- app_assoc.
    change ([DQUOTE] ++ ?x) with (DQUOTE :: x).
    by rewrite next_token_base_quoted.
  - destruct ws1 as [|c ws1]; [done|].
    pose proof Hws1 as [Hc _]%andb_prop.
    rewrite <- app_comm_cons. by rewrite next_token_base_unquoted.
Qed.

Section Directive.

Context {S : Type} `{!VDFDecoderHooks S}.
Variable resolve : string → result (list string).

Lemma step_directive (q : bool) (ws1 source name ws2 post : text)
    (d : VDFDecoder S) :
  ws1 ≠ [] → forallb is_wsp ws1 = true → forallb is_wsp ws2 = true →
  scan_quoted (source ++ [DQUOTE]) = Got name [] →
  state d = Expect ExpectKeyOrClose → buffer d = [] →
  step resolve (more (directive q ws1 source ws2 ++ post) d) =
  match resolve (String.string_of_list_ascii name) with
  | Ok fragments => Stepped (more (splice fragments ++ post) d)
  | Raise e => Failed e
  end.
Proof.
  intros Hne Hws1 Hws2 Hq Hst Hb. unfold step, more, with_buffer.
  cbn [state buffer nesting sub]. rewrite Hst, Hb.
  change (key_expected ExpectKeyOrClose) with true.
  change ([] ++ ?x) with x.
  rewrite (next_token_directive q ws1 source name ws2 post Hne Hws1 Hws2 Hq).
  unfold transition. by destruct (resolve _).
Qed.

(** A directive that raises aborts the decode with the transcluder's
    exception, whatever follows it. *)
Lemma feed_directive_raises (fuel : nat) (q : bool)
    (pre ws1 source name ws2 post : text) (d : VDFDecoder S) (e : exn) (s : S) :
  ws1 ≠ [] → forallb is_wsp ws1 = true → forallb is_wsp ws2 = true →
  scan_quoted (source ++ [DQUOTE]) = Got name [] →
  resolve (String.string_of_list_ascii name) = Raise e →
  feed resolve fuel pre (VDFDecoder_init s) = Done (Ok d) →
  state d = Expect ExpectKeyOrClose → buffer d = [] →
  decode resolve fuel [pre ++ directive q ws1 source ws2 ++ post] s
  = Done (Raise e).
Proof.
  intros Hne Hws1 Hws2 Hq Hr Hfeed Hst Hb.
  destruct (pump_resume resolve _ _ _ Hfeed) as (k & Hk & Hres).
  unfold decode, feed_all, feed.
  fold (more (pre ++ directive q ws1 source ws2 ++ post) (VDFDecoder_init s)).
  rewrite <- more_more.
  replace fuel with (k + Datatypes.S (fuel - Datatypes.S k)) at 1 by lia.
  fold (more pre (VDFDecoder_init s)).
  rewrite Hres. simpl.
  by rewrite (step_directive q ws1 source name ws2 post d Hne Hws1 Hws2 Hq Hst Hb), Hr.
Qed.

(** A directive that the transcluder accepts is replaced by the text
    of its fragments: the decode goes on as if that text had been fed
    where the directive stands, one move later. *)
Lemma decode_directive_splice (fuel : nat) (q : bool)
    (pre ws1 source name ws2 post : text) (d : VDFDecoder S)
    (fragments : list string) (s : S) :
  ws1 ≠ [] → forallb is_wsp ws1 = true → forallb is_wsp ws2 = true →
  scan_quoted (source ++ [DQUOTE]) = Got name [] →
  resolve (String.string_of_list_ascii name) = Ok fragments →
  feed resolve fuel pre (VDFDecoder_init s) = Done (Ok d) →
  state d = Expect ExpectKeyOrClose → buffer d = [] →
  decode resolve (Datatypes.S fuel) [pre ++ directive q ws1 source ws2 ++ post] s
  = decode resolve fuel [pre ++ splice fragments ++ post] s.
Proof.
  intros Hne Hws1 Hws2 Hq Hr Hfeed Hst Hb.
  destruct (pump_resume resolve _ _ _ Hfeed) as (k & Hk & Hres).
  set (init := VDFDecoder_init s) in *.
  assert (Hpump :
    pump resolve (Datatypes.S fuel) (more (pre ++ directive q ws1 source ws2 ++ post) init)
    = pump resolve fuel (more (pre ++ splice fragments ++ post) init)).
  { rewrite <- (more_more pre (directive q ws1 source ws2 ++ post) init).
    rewrite <- (more_more pre (splice fragments ++ post) init).
    replace (Datatypes.S fuel) with (k + Datatypes.S (fuel - k)) by lia.
    replace fuel with (k + (fuel - k)) at 2 by lia.
    rewrite !Hres.
    rewrite (pump_S resolve _ (more (directive q ws1 source ws2 ++ post) d)).
    by rewrite (step_directive q ws1 source name ws2 post d
                  Hne Hws1 Hws2 Hq Hst Hb), Hr. }
  unfold decode, feed_all, feed. fold init.
  fold (more (pre ++ directive q ws1 source ws2 ++ post) init).
  fold (more (pre ++ splice fragments ++ post) init).
  by rewrite Hpump.
Qed.

End Directive.

(** ** The disabled transcluder *)

(** C5. [VDFDisabledTranscluder.transclude] raises
    [VDFTransclusionError] for every name, and it is the default
    transcluder of [load] and [loads].  A decoder configured with it that
    is fed, in any chunks, a text with a directive [#base "name"] standing
    where a key is expected after text that the decoder accepts, and
    ended by its line break, fails with that transclusion error whatever
    follows the directive, and not with a format error. *)
Theorem disabled_transcluder_raises :
  (∀ name : string,
     transclude DisabledTranscluder name
     = Raise (VDFTransclusionError "Transclusion disabled"))
  ∧ (∀ (fuel : nat) (vdf : text),
       load fuel vdf None
       = load fuel vdf (Some (TranscluderObject DisabledTranscluder))
       ∧ loads fuel vdf None
         = load fuel vdf (Some (TranscluderObject DisabledTranscluder)))
  ∧ (∀ (fuel : nat) (q : bool) (pre ws1 source name ws2 post : text)
       (d : VDFDecoder VDFObjectDecoder.t) (chunks : list text),
       ws1 ≠ [] → forallb is_wsp ws1 = true → forallb is_wsp ws2 = true →
       scan_quoted (source ++ [DQUOTE]) = Got name [] →
       feed (transclude DisabledTranscluder) fuel pre
         (VDFDecoder_init VDFObjectDecoder.init) = Done (Ok d) →
       state d = Expect ExpectKeyOrClose →
       buffer d = [] →
       concat chunks = pre ++ directive q ws1 source ws2 ++ post →
       decode (transclude DisabledTranscluder) fuel chunks VDFObjectDecoder.init
       = Done (Raise (VDFTransclusionError "Transclusion disabled"))
       ∧ ¬ (∃ msg,
              decode (transclude DisabledTranscluder) fuel chunks
                VDFObjectDecoder.init
              = Done (Raise (VDFError msg)))).
Proof.
  split_and!; [done | done |].
  intros fuel q pre ws1 source name ws2 post d chunks
    Hne Hws1 Hws2 Hq Hfeed Hst Hb Hchunks.
  assert (Hdec :
    decode (transclude DisabledTranscluder) fuel chunks VDFObjectDecoder.init
    = Done (Raise (VDFTransclusionError "Transclusion disabled"))).
  { apply decode_chunks. rewrite Hchunks.
    by apply (feed_directive_raises _ fuel q pre ws1 source name ws2 post d). }
  split; [done|].
  intros [msg Hmsg]. by rewrite Hdec in Hmsg.
Qed.

Lemma disabled_transcluder_raises_witness :
  decode (transclude DisabledTranscluder) 10
    [quoted "a" ++ [SP] ++ quoted "1" ++ [LF] ++ plain "#ba";
     plain "se " ++ [DQUOTE] ++ plain "in";
     plain "c" ++ [DQUOTE; LF] ++ quoted "y" ++ [SP] ++ quoted "2" ++ [LF]]
    VDFObjectDecoder.init
  = Done (Raise (VDFTransclusionError "Transclusion disabled")).
Proof.
  refine (proj1 (proj2 (proj2 disabled_transcluder_raises) 10 false
                   (quoted "a" ++ [SP] ++ quoted "1" ++ [LF]) [SP] (plain "inc")
                   (plain "inc") [] (quoted "y" ++ [SP] ++ quoted "2" ++ [LF])
                   (Decoder (Expect ExpectKeyOrClose) 1 []
                      (VDFObjectDecoder.Make [[(KStr "a", VStr "1")]] 0 KNone [0]))
                   _ _ _ _ _ _ _ _ _)).
  - done.
  - reflexivity.
  - reflexivity.
  - reflexivity.
  - vm_compute. reflexivity.
  - reflexivity.
  - reflexivity.
  - reflexivity.
Defined.

(** C5, counterexample.  Not every document that contains [#base "inc"]
    fails with a transclusion error, and one fails with a format error.
    Each of the three texts contains [#base "inc"].  In a comment line the
    text is skipped: [load] gives the empty document, for every
    transcluder and with any fuel that gives a result.  After a key,
    [#base] is the value and [inc] the next key: [load] gives
    [{k: "#base", inc: "v"}].  Without its line break the text is an
    unfinished token: [load] raises [VDFError]. *)
Lemma directive_text_is_not_always_a_directive :
  (contains base_inc_text commented_directive_text
   ∧ contains base_inc_text value_position_text
   ∧ contains base_inc_text unterminated_directive_text)
  ∧ (∀ transcluder : option transcluder_object,
       load 10 commented_directive_text transcluder = Done (Ok ([[]], 0))
       ∧ loads 10 commented_directive_text transcluder = Done (Ok ([[]], 0))
       ∧ ∀ (fuel : nat) (e : exn),
           load fuel commented_directive_text transcluder ≠ Done (Raise e))
  ∧ (∀ transcluder : option transcluder_object,
       load 10 value_position_text transcluder
       = Done (Ok ([[(KStr "k", VStr "#base"); (KStr "inc", VStr "v")]], 0)))
  ∧ (∀ transcluder : option transcluder_object,
       load 10 unterminated_directive_text transcluder
       = Done (Raise (VDFError "incomplete token at end of input")))
  ∧ decode (transclude DisabledTranscluder) 10 [commented_directive_text]
      VDFObjectDecoder.init
    = Done (Ok (Decoder (Expect ExpectKeyOrClose) 1 [] VDFObjectDecoder.init))
  ∧ decode (transclude DisabledTranscluder) 10 [unterminated_directive_text]
      VDFObjectDecoder.init
    = Done (Raise (VDFError "incomplete token at end of input")).
Proof.
  assert (Hcomment : ∀ transcluder : option transcluder_object,
            load 10 commented_directive_text transcluder = Done (Ok ([[]], 0))).
  { intros [[T HT self]|]; vm_compute; reflexivity. }
  split_and!.
  - by exists (plain "/ "), [LF].
  - by exists (quoted "k" ++ [SP]), ([SP] ++ quoted "v" ++ [LF]).
  - exists [], []. by rewrite app_nil_r.
  - intros transcluder. split_and!.
    + apply Hcomment.
    + apply (Hcomment None).
    + intros fuel e He. destruct (decide (fuel ≤ 10)) as [Hle|Hgt].
      * apply (load_mono _ 10) in He; [|done].
        by rewrite Hcomment in He.
      * pose proof (load_mono 10 fuel _ _ _ (Hcomment transcluder)) as Hm.
        rewrite Hm in He; [done | lia].
  - intros [[T HT self]|]; vm_compute; reflexivity.
  - intros [[T HT self]|]; vm_compute; reflexivity.
  - vm_compute. reflexivity.
  - vm_compute. reflexivity.
Qed.

(** ** The ignoring transcluder *)

Section QuietDirective.

Context {S : Type} `{!VDFDecoderHooks S}.
Variable resolve : string → result (list string).
Hypothesis resolve_quiet : quiet resolve.

(** With a quiet transcluder that accepts the name, a directive reached
    where a key is expected changes nothing: the decode of the text and
    the decode of the text without the directive both end as feeding
    what follows the directive to the decoder that stands at the
    directive ends. *)
Lemma decode_directive_quiet (fuel : nat) (q : bool)
    (pre ws1 source name ws2 post : text) (d : VDFDecoder S)
    (fragments : list string) (s : S) :
  ws1 ≠ [] → forallb is_wsp ws1 = true → forallb is_wsp ws2 = true →
  scan_quoted (source ++ [DQUOTE]) = Got name [] →
  resolve (String.string_of_list_ascii name) = Ok fragments →
  feed resolve fuel pre (VDFDecoder_init s) = Done (Ok d) →
  state d = Expect ExpectKeyOrClose → buffer d = [] →
  length (pre ++ directive q ws1 source ws2 ++ post) < fuel →
  ∃ r1,
    feed resolve fuel post d = Done r1
    ∧ decode resolve fuel [pre ++ directive q ws1 source ws2 ++ post] s
      = Done (match r1 with Ok d1 => complete d1 | Raise e => Raise e end)
    ∧ decode resolve fuel [pre ++ post] s
      = Done (match r1 with Ok d1 => complete d1 | Raise e => Raise e end).
Proof.
  intros Hne Hws1 Hws2 Hq Hr Hfeed Hst Hb Hlen.
  destruct (pump_resume resolve _ _ _ Hfeed) as (k & Hk & Hres).
  set (init := VDFDecoder_init s) in *.
  destruct (pump_total resolve resolve_quiet fuel
              (more (pre ++ directive q ws1 source ws2 ++ post) init))
    as [r1 Hr1]; [done|].
  assert (Hpost : pump resolve (fuel - Datatypes.S k) (more post d) = Done r1).
  { revert Hr1.
    rewrite <- (more_more pre (directive q ws1 source ws2 ++ post) init).
    replace fuel with (k + Datatypes.S (fuel - Datatypes.S k)) at 1 by lia.
    rewrite Hres.
    rewrite (pump_S resolve _ (more (directive q ws1 source ws2 ++ post) d)).
    rewrite (step_directive resolve q ws1 source name ws2 post d
               Hne Hws1 Hws2 Hq Hst Hb), Hr.
    rewrite (resolve_quiet _ _ Hr). by change ([] ++ post) with post. }
  assert (Hwithout : pump resolve fuel (more (pre ++ post) init) = Done r1).
  { rewrite <- (more_more pre post init).
    replace fuel with (k + (fuel - k)) at 1 by lia.
    rewrite Hres. eapply pump_mono; [exact Hpost | lia]. }
  exists r1. split_and!.
  - unfold feed. fold (more post d).
    eapply pump_mono; [exact Hpost | lia].
  - unfold decode, feed_all, feed. fold init.
    fold (more (pre ++ directive q ws1 source ws2 ++ post) init).
    rewrite Hr1. by destruct r1.
  - unfold decode, feed_all, feed. fold init.
    fold (more (pre ++ post) init).
    rewrite Hwithout. by destruct r1.
Qed.

End QuietDirective.

Lemma ignore_quiet : quiet (transclude IgnoreTranscluder).
Proof. intros name fragments. by intros [= <-]. Qed.

(** C8. [VDFIgnoreTranscluder.transclude] succeeds for every name and
    yields the empty string alone.  Hence for a decoder configured with
    this transcluder a directive, standing where a key is expected after
    text that the decoder accepts, is a no-op: decoding the text, fed in
    any chunks, gives what decoding the text without the directive gives,
    namely what completing the decoder gives after the text that follows
    the directive is fed to the decoder that stands at the directive; and
    it does give a result with fuel above the length of the text. *)
Theorem ignored_directive_is_noop :
  (∀ name : string, transclude IgnoreTranscluder name = Ok [EmptyString])
  ∧ (∀ (fuel : nat) (q : bool) (pre ws1 source name ws2 post : text)
       (d : VDFDecoder VDFObjectDecoder.t) (chunks chunks' : list text),
       ws1 ≠ [] → forallb is_wsp ws1 = true → forallb is_wsp ws2 = true →
       scan_quoted (source ++ [DQUOTE]) = Got name [] →
       feed (transclude IgnoreTranscluder) fuel pre
         (VDFDecoder_init VDFObjectDecoder.init) = Done (Ok d) →
       state d = Expect ExpectKeyOrClose →
       buffer d = [] →
       length (pre ++ directive q ws1 source ws2 ++ post) < fuel →
       concat chunks = pre ++ directive q ws1 source ws2 ++ post →
       concat chunks' = pre ++ post →
       ∃ r1,
         feed (transclude IgnoreTranscluder) fuel post d = Done r1
         ∧ decode (transclude IgnoreTranscluder) fuel chunks VDFObjectDecoder.init
           = Done (match r1 with Ok d1 => complete d1 | Raise e => Raise e end)
         ∧ decode (transclude IgnoreTranscluder) fuel chunks' VDFObjectDecoder.init
           = Done (match r1 with Ok d1 => complete d1 | Raise e => Raise e end)).
Proof.
  split; [done|].
  intros fuel q pre ws1 source name ws2 post d chunks chunks'
    Hne Hws1 Hws2 Hq Hfeed Hst Hb Hlen Hchunks Hchunks'.
  destruct (decode_directive_quiet (transclude IgnoreTranscluder) ignore_quiet
              fuel q pre ws1 source name ws2 post d [EmptyString]
              VDFObjectDecoder.init Hne Hws1 Hws2 Hq eq_refl Hfeed Hst Hb Hlen)
    as (r1 & Hpost & Hwith & Hwithout).
  exists r1. split_and!; [done | |].
  - apply decode_chunks. by rewrite Hchunks.
  - apply decode_chunks. by rewrite Hchunks'.
Qed.

Lemma ignored_directive_is_noop_witness :
  decode (transclude IgnoreTranscluder) 100
    [quoted "a" ++ [SP] ++ quoted "1" ++ [LF; DQUOTE] ++ plain "#ba";
     plain "se" ++ [DQUOTE; SP; HTAB; DQUOTE] ++ plain "inc" ++ [DQUOTE; SP; LF];
     quoted "y" ++ [SP] ++ quoted "2" ++ [LF]]
    VDFObjectDecoder.init
  = Done (Ok (Decoder (Expect ExpectKeyOrClose) 1 []
                (VDFObjectDecoder.Make
                   [[(KStr "a", VStr "1"); (KStr "y", VStr "2")]] 0 KNone [0])))
  ∧ decode (transclude IgnoreTranscluder) 100
      [quoted "a" ++ [SP] ++ quoted "1" ++ [LF];
       quoted "y" ++ [SP] ++ quoted "2" ++ [LF]]
      VDFObjectDecoder.init
    = Done (Ok (Decoder (Expect ExpectKeyOrClose) 1 []
                  (VDFObjectDecoder.Make
                     [[(KStr "a", VStr "1"); (KStr "y", VStr "2")]] 0 KNone [0]))).
Proof.
  destruct (proj2 ignored_directive_is_noop 100 true
              (quoted "a" ++ [SP] ++ quoted "1" ++ [LF]) [SP; HTAB] (plain "inc")
              (plain "inc") [SP] (quoted "y" ++ [SP] ++ quoted "2" ++ [LF])
              (Decoder (Expect ExpectKeyOrClose) 1 []
                 (VDFObjectDecoder.Make [[(KStr "a", VStr "1")]] 0 KNone [0]))
              [quoted "a" ++ [SP] ++ quoted "1" ++ [LF; DQUOTE] ++ plain "#ba";
               plain "se" ++ [DQUOTE; SP; HTAB; DQUOTE] ++ plain "inc"
                 ++ [DQUOTE; SP; LF];
               quoted "y" ++ [SP] ++ quoted "2" ++ [LF]]
              [quoted "a" ++ [SP] ++ quoted "1" ++ [LF];
               quoted "y" ++ [SP] ++ quoted "2" ++ [LF]]
              ltac:(done) eq_refl eq_refl eq_refl
              ltac:(vm_compute; reflexivity) eq_refl eq_refl
              ltac:(vm_compute; lia) eq_refl eq_refl)
    as (r1 & Hpost & Hwith & Hwithout).
  assert (Hr1 : r1 = Ok (Decoder (Expect ExpectKeyOrClose) 1 []
                           (VDFObjectDecoder.Make
                              [[(KStr "a", VStr "1"); (KStr "y", VStr "2")]]
                              0 KNone [0]))).
  { vm_compute in Hpost. by injection Hpost as <-. }
  subst r1. split; [exact Hwith | exact Hwithout].
Defined.

(** ** Duplicate keys *)

(** C6. A repeated key within one object overwrites the value and keeps
    its place.  Decoding ["a" "1" "a" "2"] gives [{a: "2"}], at the root
    and inside a block, and decoding ["a" "1" "b" "2" "a" "3"] gives
    [{a: "3", b: "2"}] in this order.  In general [on_value(v)] with a
    pending key that is present in the dictionary on top of the stack
    leaves the keys and their order as they are, binds the key to [v]
    and leaves the other values as they are. *)
Theorem duplicate_key_last_write_wins :
  (∀ (fuel : nat) (transcluder : option transcluder_object),
     8 ≤ fuel →
     load fuel duplicate_text transcluder
     = Done (Ok ([[(KStr "a", VStr "2")]], 0))
     ∧ load fuel nested_duplicate_text transcluder
       = Done (Ok ([[(KStr "o", VRef 1)]; [(KStr "a", VStr "2")]], 0))
     ∧ load fuel reordered_text transcluder
       = Done (Ok ([[(KStr "a", VStr "3"); (KStr "b", VStr "2")]], 0)))
  ∧ document_of ([[(KStr "a", VStr "2")]], 0)
    = Some (Object [(KStr "a", Scalar "2")])
  ∧ document_of ([[(KStr "o", VRef 1)]; [(KStr "a", VStr "2")]], 0)
    = Some (Object [(KStr "o", Object [(KStr "a", Scalar "2")])])
  ∧ (∀ (v : string) (self : VDFObjectDecoder.t) (top : addr) (d : pydict),
       last (VDFObjectDecoder._stack self) = Some top →
       VDFObjectDecoder.store self !! top = Some d →
       VDFObjectDecoder._key self ∈ dict_keys d →
       ∃ self' d',
         VDFObjectDecoder.on_value v self = (Ok tt, self')
         ∧ VDFObjectDecoder.store self' !! top = Some d'
         ∧ dict_keys d' = dict_keys d
         ∧ dict_getitem (VDFObjectDecoder._key self) d' = Some (VStr v)
         ∧ ∀ k, k ≠ VDFObjectDecoder._key self →
                dict_getitem k d' = dict_getitem k d).
Proof.
  split_and!.
  - intros fuel transcluder Hfuel.
    split_and!; apply (load_mono 8); try done; by vm_compute.
  - done.
  - done.
  - intros v self top d Htop Hd Hin.
    unfold VDFObjectDecoder.on_value. rewrite Htop.
    eexists _, _. split; [done|]. simpl.
    rewrite list_lookup_alter_eq, Hd. simpl. split_and!; [done | | |].
    + by apply dict_keys_setitem_present.
    + apply dict_getitem_setitem.
    + intros k Hk. by apply dict_getitem_setitem_ne.
Qed.

Lemma duplicate_key_last_write_wins_witness :
  load 8 duplicate_text None = Done (Ok ([[(KStr "a", VStr "2")]], 0))
  ∧ ∃ self' d',
      VDFObjectDecoder.on_value "2"
        (VDFObjectDecoder.Make [[(KStr "a", VStr "1")]] 0 (KStr "a") [0])
      = (Ok tt, self')
      ∧ VDFObjectDecoder.store self' !! 0 = Some d'
      ∧ dict_keys d' = [KStr "a"].
Proof.
  split.
  - apply (proj1 duplicate_key_last_write_wins 8 None). lia.
  - destruct (proj2 (proj2 (proj2 duplicate_key_last_write_wins)) "2"
                (VDFObjectDecoder.Make [[(KStr "a", VStr "1")]] 0 (KStr "a") [0])
                0 [(KStr "a", VStr "1")])
      as (self' & d' & Hcall & Hstore & Hkeys & _).
    + reflexivity.
    + reflexivity.
    + apply list_elem_of_here.
    + by exists self', d'.
Defined.

(** ** [loads] and its transcluder *)

(** C2, on the code.  [load] invokes the transcluder it is given and
    goes on with the text of its fragments in the place of the
    directive: with the registry on which [inc] is registered as
    ["x" "1"] and a line break, it decodes the example to
    [{x: "1", y: "2"}].  [loads] does not pass its [transcluder] argument
    on: it is [load] with the default, disabled, transcluder, and on the
    same input and registry it raises [VDFTransclusionError]. *)
Theorem loads_drops_transcluder :
  (∀ (fuel : nat) (vdf : text) (transcluder : option transcluder_object),
     loads fuel vdf transcluder = load fuel vdf None)
  ∧ (∀ fuel : nat, 8 ≤ fuel →
       load fuel transclusion_text (Some (TranscluderObject example_registry))
       = Done (Ok ([[(KStr "x", VStr "1"); (KStr "y", VStr "2")]], 0))
       ∧ loads fuel transclusion_text (Some (TranscluderObject example_registry))
         = Done (Raise (VDFTransclusionError "Transclusion disabled")))
  ∧ document_of ([[(KStr "x", VStr "1"); (KStr "y", VStr "2")]], 0)
    = Some (Object [(KStr "x", Scalar "1"); (KStr "y", Scalar "2")])
  ∧ (∀ (transcluder : transcluder_object) (fuel : nat) (q : bool)
       (pre ws1 source name ws2 post : text)
       (d : VDFDecoder VDFObjectDecoder.t) (fragments : list string),
       ws1 ≠ [] → forallb is_wsp ws1 = true → forallb is_wsp ws2 = true →
       scan_quoted (source ++ [DQUOTE]) = Got name [] →
       transclude_method transcluder (String.string_of_list_ascii name)
       = Ok fragments →
       feed (transclude_method transcluder) fuel pre
         (VDFDecoder_init VDFObjectDecoder.init) = Done (Ok d) →
       state d = Expect ExpectKeyOrClose →
       buffer d = [] →
       decode (transclude_method transcluder) (Datatypes.S fuel)
         [pre ++ directive q ws1 source ws2 ++ post] VDFObjectDecoder.init
       = decode (transclude_method transcluder) fuel
           [pre ++ splice fragments ++ post] VDFObjectDecoder.init).
Proof.
  split_and!; [done | | done |].
  - intros fuel Hfuel. split; apply (load_mono 8); try done; by vm_compute.
  - intros transcluder fuel q pre ws1 source name ws2 post d fragments.
    apply decode_directive_splice.
Qed.

Lemma loads_drops_transcluder_witness :
  loads 8 transclusion_text (Some (TranscluderObject example_registry))
  = Done (Raise (VDFTransclusionError "Transclusion disabled"))
  ∧ decode (transclude_method (TranscluderObject example_registry)) 9
      [[] ++ directive false [SP] (plain "inc") []
          ++ quoted "y" ++ [SP] ++ quoted "2" ++ [LF]]
      VDFObjectDecoder.init
    = decode (transclude_method (TranscluderObject example_registry)) 8
        [[] ++ (quoted "x" ++ [SP] ++ quoted "1" ++ [LF])
            ++ quoted "y" ++ [SP] ++ quoted "2" ++ [LF]]
        VDFObjectDecoder.init.
Proof.
  split.
  - apply (proj1 (proj2 loads_drops_transcluder) 8). lia.
  - refine (proj2 (proj2 (proj2 loads_drops_transcluder))
              (TranscluderObject example_registry) 8 false [] [SP] (plain "inc")
              (plain "inc") [] (quoted "y" ++ [SP] ++ quoted "2" ++ [LF])
              (VDFDecoder_init VDFObjectDecoder.init)
              [String.string_of_list_ascii (quoted "x" ++ [SP] ++ quoted "1" ++ [LF])]
              _ _ _ _ _ _ _ _); done.
Defined.

(** ** [dumps] *)

(** C1, on the code.  [dump] writes nothing, so [dumps] gives the empty
    text for every object, and decoding it gives the empty document:
    the document [{a: "1"}], which the decoder produces from ["a" "1"],
    does not come back. *)
Theorem dumps_writes_nothing :
  (∀ object_ : pyobject, dumps object_ = [])
  ∧ (∀ (fuel : nat) (object_ : pyobject) (transcluder : option transcluder_object),
       1 ≤ fuel →
       loads fuel (dumps object_) transcluder = Done (Ok ([[]], 0)))
  ∧ (∀ fuel : nat, 4 ≤ fuel →
       ∃ d d',
         loads fuel pair_text None = Done (Ok d)
         ∧ document_of d = Some (Object [(KStr "a", Scalar "1")])
         ∧ loads fuel (dumps d) None = Done (Ok d')
         ∧ document_of d' = Some (Object [])
         ∧ document_of d' ≠ document_of d).
Proof.
  split_and!.
  - done.
  - intros fuel object_ transcluder Hfuel. by apply (load_mono 1).
  - intros fuel Hfuel.
    exists ([[(KStr "a", VStr "1")]], 0), ([[]], 0). split_and!.
    + apply (load_mono 4); [by vm_compute | done].
    + done.
    + by apply (load_mono 1); [|lia].
    + done.
    + done.
Qed.

Lemma dumps_writes_nothing_witness :
  loads 1 (dumps ([[(KStr "a", VStr "1")]], 0)) None = Done (Ok ([[]], 0))
  ∧ ∃ d d',
      loads 4 pair_text None = Done (Ok d)
      ∧ loads 4 (dumps d) None = Done (Ok d')
      ∧ document_of d' ≠ document_of d.
Proof.
  split.
  - apply (proj1 (proj2 dumps_writes_nothing) 1). lia.
  - destruct (proj2 (proj2 dumps_writes_nothing) 4)
      as (d & d' & Hd & _ & Hd' & _ & Hne); [lia|].
    by exists d, d'.
Defined.

(** * Further properties of the source *)

(** ** The registry of [VDFTestTranscluder] *)

(** X1. [register] and [unregister] undo each other: unregistering a
    name just registered gives back the registry as it was, and
    registering again, with the same contents, a document just
    unregistered gives back the registry as it was. *)
Theorem register_unregister_inverse (self : VDFTestTranscluder) (name document : string) :
  (_documents self !! name = None →
   unregister name (register name document self).2 = (Ok tt, self))
  ∧ (_documents self !! name = Some document →
     register name document (unregister name self).2 = (Ok tt, self)).
Proof.
  destruct self as [m]. simpl. split; intros Hm.
  - unfold register. simpl. rewrite Hm. unfold unregister. simpl.
    rewrite lookup_insert_eq. by rewrite delete_insert_id.
  - unfold unregister. simpl. rewrite Hm. unfold register. simpl.
    rewrite lookup_delete_eq. by rewrite insert_delete_id.
Qed.

Lemma register_unregister_inverse_witness :
  unregister "other" (register "other" "doc" example_registry).2
  = (Ok tt, example_registry)
  ∧ register "inc" (String.string_of_list_ascii (quoted "x" ++ [SP] ++ quoted "1" ++ [LF]))
      (unregister "inc" example_registry).2
    = (Ok tt, example_registry).
Proof.
  split.
  - apply (proj1 (register_unregister_inverse example_registry "other" "doc")).
    reflexivity.
  - apply (proj2 (register_unregister_inverse example_registry "inc" _)).
    reflexivity.
Defined.

(** X2. A registered document is replaced only through [unregister].
    On a registered name [register] raises [LookupError], leaves the
    registry as it was, and [transclude] still yields the old document.
    [unregister] on that name succeeds, [register] after it succeeds too,
    [transclude] then yields the new document, and the other names are as
    they were. *)
Theorem registered_document_replaced_by_unregister
    (self : VDFTestTranscluder) (name old new : string) :
  _documents self !! name = Some old →
  (register name new self = (Raise (LookupError (already_registered name)), self)
   ∧ is_lookup_error (register name new self).1
   ∧ transclude (register name new self).2 name = Ok [old])
  ∧ (unregister name self).1 = Ok tt
  ∧ (∃ replaced,
       register name new (unregister name self).2 = (Ok tt, replaced)
       ∧ transclude replaced name = Ok [new]
       ∧ ∀ other, other ≠ name →
           transclude replaced other = transclude self other).
Proof.
  destruct self as [m]. simpl. intros Hm.
  assert (Hreg : register name new {| _documents := m |}
                 = (Raise (LookupError (already_registered name)),
                    {| _documents := m |})).
  { unfold register. simpl. by rewrite Hm. }
  split_and!.
  - done.
  - rewrite Hreg. by eexists.
  - rewrite Hreg. unfold transclude, test_transclude. simpl. by rewrite Hm.
  - unfold unregister. simpl. by rewrite Hm.
  - unfold unregister. simpl. rewrite Hm. unfold register. simpl.
    rewrite lookup_delete_eq. eexists. split; [done|].
    unfold transclude, test_transclude. simpl. split.
    + by rewrite lookup_insert_eq.
    + intros other Hne. by rewrite lookup_insert_ne, lookup_delete_ne.
Qed.

Lemma registered_document_replaced_by_unregister_witness :
  register "inc" "new" example_registry
  = (Raise (LookupError (already_registered "inc")), example_registry)
  ∧ (unregister "inc" example_registry).1 = Ok tt
  ∧ ∃ replaced,
      register "inc" "new" (unregister "inc" example_registry).2 = (Ok tt, replaced)
      ∧ transclude replaced "inc" = Ok ["new"].
Proof.
  destruct (registered_document_replaced_by_unregister example_registry
              "inc" _ "new" eq_refl)
    as ((Hraise & _ & _) & Hun & replaced & Hcall & Hnew & _).
  split_and!; [exact Hraise | exact Hun |].
  by exists replaced.
Defined.

(** X3. Calls on different names do not interfere: for two [register]
    or [unregister] calls on different names, each call has the outcome
    it has alone whichever comes first, and the registry after both is the
    same in either order. *)
Theorem registry_calls_on_different_names_commute
    (self : VDFTestTranscluder) (op1 op2 : registry_op) :
  op_name op1 ≠ op_name op2 →
  (perform op2 (perform op1 self).2).2 = (perform op1 (perform op2 self).2).2
  ∧ (perform op2 (perform op1 self).2).1 = (perform op2 self).1
  ∧ (perform op1 (perform op2 self).2).1 = (perform op1 self).1.
Proof.
  destruct self as [m].
  destruct op1 as [n1 d1|n1], op2 as [n2 d2|n2]; simpl; intros Hne;
    unfold register, unregister; simpl;
    destruct (m !! n1) eqn:H1, (m !! n2) eqn:H2; simpl;
    rewrite ?lookup_insert_ne, ?lookup_delete_ne, ?H1, ?H2 by done; simpl;
    rewrite ?lookup_insert_ne, ?lookup_delete_ne, ?H1, ?H2 by done; simpl;
    split_and!; try done; f_equal.
  - by apply insert_insert_ne.
  - by rewrite delete_insert_ne.
  - by rewrite delete_insert_ne.
  - apply delete_delete.
Qed.

Lemma registry_calls_on_different_names_commute_witness :
  (perform (Unregister "inc") (perform (Register "other" "doc") example_registry).2).2
  = (perform (Register "other" "doc") (perform (Unregister "inc") example_registry).2).2.
Proof.
  apply (registry_calls_on_different_names_commute example_registry
           (Register "other" "doc") (Unregister "inc")).
  done.
Defined.

(** ** Exception classes *)

(** X4. [VDFTransclusionError] does not derive from [VDFError].  An
    exception raised by [transclude] of the ignoring, the disabled or the
    test transcluder is caught by a handler for [VDFTransclusionError]
    and not by a handler for [VDFError]; an exception raised by
    [register] or [unregister] is caught by a handler for [LookupError]
    and by neither of the two; an exception raised by a callback of
    [VDFObjectDecoder] is an [IndexError], caught by a handler for
    [LookupError] and by neither of the two. *)
Theorem exceptions_outside_VDFError :
  (∀ (t : transcluder_object) (name : string) (e : exn),
     (∃ self : VDFIgnoreTranscluder, t = TranscluderObject self)
     ∨ (∃ self : VDFDisabledTranscluder, t = TranscluderObject self)
     ∨ (∃ self : VDFTestTranscluder, t = TranscluderObject self) →
     transclude_method t name = Raise e →
     catches ClsVDFTransclusionError e = true
     ∧ catches ClsVDFError e = false
     ∧ catches ClsLookupError e = false)
  ∧ (∀ (op : registry_op) (self : VDFTestTranscluder) (e : exn),
       (perform op self).1 = Raise e →
       catches ClsLookupError e = true
       ∧ catches ClsVDFError e = false
       ∧ catches ClsVDFTransclusionError e = false)
  ∧ (∀ (ev : event) (self : VDFObjectDecoder.t) (e : exn),
       (call ev self).1 = Raise e →
       class_of e = ClsIndexError
       ∧ catches ClsLookupError e = true
       ∧ catches ClsVDFError e = false
       ∧ catches ClsVDFTransclusionError e = false).
Proof.
  split_and!.
  - intros t name e [[self ->]|[[self ->]|[self ->]]]; simpl.
    + done.
    + by intros [= <-].
    + unfold transclude, test_transclude.
      destruct (_documents self !! name); [done|]. by intros [= <-].
  - intros [name document|name] self e; simpl; unfold register, unregister;
      destruct (_documents self !! name); simpl; try done; by intros [= <-].
  - intros [| |k|v] self e; simpl;
      unfold VDFObjectDecoder.on_object_enter, VDFObjectDecoder.on_object_exit,
        VDFObjectDecoder.on_value.
    + destruct (last _); [done|]. by intros [= <-].
    + destruct (VDFObjectDecoder._stack self); [|done]. by intros [= <-].
    + done.
    + destruct (last _); [done|]. by intros [= <-].
Qed.

Lemma exceptions_outside_VDFError_witness :
  catches ClsVDFError (VDFTransclusionError "Transclusion disabled") = false
  ∧ catches ClsLookupError
      (LookupError "Document with name 'inc' already registered") = true
  ∧ catches ClsLookupError (IndexError "pop from empty list") = true.
Proof.
  split_and!.
  - apply (proj1 exceptions_outside_VDFError
             (TranscluderObject DisabledTranscluder) "inc").
    + right. left. by exists DisabledTranscluder.
    + reflexivity.
  - apply (proj1 (proj2 exceptions_outside_VDFError)
             (Register "inc" "doc") example_registry).
    reflexivity.
  - apply (proj2 (proj2 exceptions_outside_VDFError) ExitObject
             (VDFObjectDecoder.Make [[]] 0 KNone [])).
    reflexivity.
Defined.

(** ** The store of [VDFObjectDecoder] *)

(** What a callback does to the decoder, case by case. *)
Lemma call_cases (e : event) (self self' : VDFObjectDecoder.t) (r : result unit) :
  call e self = (r, self') →
  (∃ x, r = Raise x ∧ self' = self)
  ∨ (∃ k, e = Key k ∧ r = Ok tt
       ∧ self' = VDFObjectDecoder.Make (VDFObjectDecoder.store self)
                   (VDFObjectDecoder.object self) (KStr k)
                   (VDFObjectDecoder._stack self))
  ∨ (e = ExitObject ∧ r = Ok tt ∧ VDFObjectDecoder._stack self ≠ []
       ∧ self' = VDFObjectDecoder.Make (VDFObjectDecoder.store self)
                   (VDFObjectDecoder.object self) (VDFObjectDecoder._key self)
                   (removelast (VDFObjectDecoder._stack self)))
  ∨ (∃ v top, e = Value v ∧ r = Ok tt
       ∧ last (VDFObjectDecoder._stack self) = Some top
       ∧ self' = VDFObjectDecoder.Make
                   (alter (dict_setitem (VDFObjectDecoder._key self) (VStr v)) top
                      (VDFObjectDecoder.store self))
                   (VDFObjectDecoder.object self) KNone
                   (VDFObjectDecoder._stack self))
  ∨ (∃ top, e = EnterObject ∧ r = Ok tt
       ∧ last (VDFObjectDecoder._stack self) = Some top
       ∧ self' = VDFObjectDecoder.Make
                   (alter (dict_setitem (VDFObjectDecoder._key self)
                             (VRef (length (VDFObjectDecoder.store self)))) top
                      (VDFObjectDecoder.store self ++ [[]]))
                   (VDFObjectDecoder.object self) KNone
                   (VDFObjectDecoder._stack self
                    ++ [length (VDFObjectDecoder.store self)])).
Proof.
  destruct e as [| |k|v]; simpl.
  - unfold VDFObjectDecoder.on_object_enter.
    destruct (last (VDFObjectDecoder._stack self)) as [top|] eqn:Htop;
      intros [= <- <-]; [|eauto].
    do 4 right. by exists top.
  - unfold VDFObjectDecoder.on_object_exit.
    destruct (VDFObjectDecoder._stack self) as [|a st] eqn:Hst;
      intros [= <- <-]; [eauto|].
    by right; right; left.
  - intros [= <- <-]. right. left. by exists k.
  - unfold VDFObjectDecoder.on_value.
    destruct (last (VDFObjectDecoder._stack self)) as [top|] eqn:Htop;
      intros [= <- <-]; [|eauto].
    do 3 right. left. by exists v, top.
Qed.

Lemma dict_keys_setitem_prefix (k : pykey) (v : pyval) (d : pydict) :
  dict_keys d `prefix_of` dict_keys (dict_setitem k v d).
Proof.
  unfold dict_keys. induction d as [|[k0 v0] d IH]; simpl.
  - apply prefix_nil.
  - destruct (decide (k0 = k)); simpl; [done|]. by apply prefix_cons.
Qed.

Lemma dict_setitem_elem (k : pykey) (v : pyval) (d : pydict) (x : pykey * pyval) :
  x ∈ dict_setitem k v d → x = (k, v) ∨ x ∈ d.
Proof.
  induction d as [|[k0 v0] d IH]; simpl.
  - intros ->%list_elem_of_singleton. by left.
  - destruct (decide (k0 = k)) as [->|Hne].
    + intros [->|Hin]%elem_of_cons; [by left|]. right. by apply elem_of_cons; right.
    + intros [->|Hin]%elem_of_cons.
      * right. apply list_elem_of_here.
      * destruct (IH Hin) as [->|Hd]; [by left|].
        right. by apply elem_of_cons; right.
Qed.

Lemma call_keeps_keys (e : event) (self self' : VDFObjectDecoder.t) (r : result unit)
    (a : addr) (d : pydict) :
  call e self = (r, self') →
  VDFObjectDecoder.store self !! a = Some d →
  ∃ d', VDFObjectDecoder.store self' !! a = Some d'
        ∧ dict_keys d `prefix_of` dict_keys d'.
Proof.
  intros Hcall Hd.
  destruct (call_cases _ _ _ _ Hcall)
    as [(x & -> & ->)|[(k & -> & -> & ->)|[(-> & -> & Hne & ->)|
        [(v & top & -> & -> & Htop & ->)|(top & -> & -> & Htop & ->)]]]]; simpl;
    try (by exists d).
  - rewrite list_lookup_alter. case_decide as Heq.
    + subst a. rewrite Hd. simpl. eexists. split; [done|].
      apply dict_keys_setitem_prefix.
    + by exists d.
  - rewrite list_lookup_alter. rewrite (lookup_app_l_Some _ _ _ _ Hd).
    case_decide as Heq.
    + subst a. rewrite (lookup_app_l_Some _ _ _ _ Hd). simpl.
      eexists. split; [done|]. apply dict_keys_setitem_prefix.
    + by exists d.
Qed.

(** X5. No callback removes or moves a key: whatever the events, and
    whether or not a call raises, every dictionary in the store is still
    there afterwards and its keys begin with the keys it had, in the same
    order. *)
Theorem keys_are_kept_in_order (evs : list event)
    (self self' : VDFObjectDecoder.t) (r : result unit) (a : addr) (d : pydict) :
  run_events evs self = (r, self') →
  VDFObjectDecoder.store self !! a = Some d →
  ∃ d', VDFObjectDecoder.store self' !! a = Some d'
        ∧ dict_keys d `prefix_of` dict_keys d'.
Proof.
  revert self d. induction evs as [|e evs IH]; intros self d; simpl.
  - intros [= <- <-] Hd. by exists d.
  - destruct (call e self) as [[[]|x] s1] eqn:Hcall.
    + intros Hrun Hd.
      destruct (call_keeps_keys _ _ _ _ _ _ Hcall Hd) as (d1 & Hd1 & Hp1).
      destruct (IH _ _ Hrun Hd1) as (d' & Hd' & Hp').
      exists d'. split; [done|]. by transitivity (dict_keys d1).
    + intros [= <- <-] Hd. by apply (call_keeps_keys _ _ _ _ _ _ Hcall).
Qed.

Lemma keys_are_kept_in_order_witness :
  ∃ d',
    VDFObjectDecoder.store
      (run_events [Key "b"; Value "2"; Key "a"; Value "3"]
         (VDFObjectDecoder.Make [[(KStr "a", VStr "1")]] 0 KNone [0])).2 !! 0
    = Some d'
    ∧ dict_keys [(KStr "a", VStr "1")] `prefix_of` dict_keys d'.
Proof.
  apply (keys_are_kept_in_order [Key "b"; Value "2"; Key "a"; Value "3"]
           (VDFObjectDecoder.Make [[(KStr "a", VStr "1")]] 0 KNone [0]) _ (Ok tt)).
  - reflexivity.
  - reflexivity.
Defined.

Lemma elem_of_removelast {A} (x : A) (l : list A) : x ∈ removelast l → x ∈ l.
Proof.
  rewrite removelast_firstn_len. intros (i & Hi & _)%elem_of_take.
  by eapply list_elem_of_lookup_2.
Qed.

Lemma call_leaves_closed (e : event) (self self' : VDFObjectDecoder.t)
    (r : result unit) (a : addr) :
  call e self = (r, self') →
  a < length (VDFObjectDecoder.store self) →
  a ∉ VDFObjectDecoder._stack self →
  VDFObjectDecoder.store self' !! a = VDFObjectDecoder.store self !! a
  ∧ a < length (VDFObjectDecoder.store self')
  ∧ a ∉ VDFObjectDecoder._stack self'.
Proof.
  intros Hcall Hlt Hout.
  destruct (call_cases _ _ _ _ Hcall)
    as [(x & -> & ->)|[(k & -> & -> & ->)|[(-> & -> & Hne & ->)|
        [(v & top & -> & -> & Htop & ->)|(top & -> & -> & Htop & ->)]]]]; simpl;
    try done.
  - split_and!; [done | done |]. intros Hin. by apply Hout, elem_of_removelast.
  - assert (top ≠ a) by (intros ->; by apply Hout, last_Some_elem_of).
    rewrite list_lookup_alter_ne, length_alter by done. done.
  - assert (top ≠ a) by (intros ->; by apply Hout, last_Some_elem_of).
    rewrite list_lookup_alter_ne, length_alter, length_app by done. simpl.
    rewrite lookup_app_l by done. split_and!; [done | lia |].
    intros [Hin|Hin%list_elem_of_singleton]%elem_of_app; [done | lia].
Qed.

(** X6. A dictionary that is not on the stack is never written again:
    once an object has been left, or has never been entered, no later
    event changes it, and it does not come back on the stack. *)
Theorem closed_objects_are_not_written (evs : list event)
    (self self' : VDFObjectDecoder.t) (r : result unit) (a : addr) :
  run_events evs self = (r, self') →
  a < length (VDFObjectDecoder.store self) →
  a ∉ VDFObjectDecoder._stack self →
  VDFObjectDecoder.store self' !! a = VDFObjectDecoder.store self !! a
  ∧ a ∉ VDFObjectDecoder._stack self'.
Proof.
  revert self. induction evs as [|e evs IH]; intros self; simpl.
  - by intros [= <- <-].
  - destruct (call e self) as [[[]|x] s1] eqn:Hcall.
    + intros Hrun Hlt Hout.
      destruct (call_leaves_closed _ _ _ _ _ Hcall Hlt Hout) as (Hs1 & Hlt1 & Hout1).
      destruct (IH _ Hrun Hlt1 Hout1) as (Hs' & Hout').
      split; [congruence | done].
    + intros [= <- <-] Hlt Hout.
      by destruct (call_leaves_closed _ _ _ _ _ Hcall Hlt Hout) as (? & _ & ?).
Qed.

Lemma closed_objects_are_not_written_witness :
  VDFObjectDecoder.store
    (run_events [Key "b"; Value "2"; Key "c"; EnterObject; Key "d"; Value "3"]
       (VDFObjectDecoder.Make [[(KStr "o", VRef 1)]; [(KStr "a", VStr "1")]]
          0 KNone [0])).2 !! 1
  = Some [(KStr "a", VStr "1")].
Proof.
  apply (closed_objects_are_not_written
           [Key "b"; Value "2"; Key "c"; EnterObject; Key "d"; Value "3"]
           (VDFObjectDecoder.Make [[(KStr "o", VRef 1)]; [(KStr "a", VStr "1")]]
              0 KNone [0]) _ (Ok tt) 1).
  - reflexivity.
  - simpl. lia.
  - intros Hin. apply list_elem_of_singleton in Hin. lia.
Defined.

(** ** The document is always a tree *)

Lemma reify_S (fuel : nat) (h : list pydict) (a : addr) :
  reify (Datatypes.S fuel) h a =
  d ← h !! a;
  entries ← mapM (fun kv : pykey * pyval =>
                    match kv.2 with
                    | VStr s => Some (kv.1, Scalar s)
                    | VRef b => n ← reify fuel h b; Some (kv.1, n)
                    end) d;
  Some (Object entries).
Proof. done. Qed.

Lemma init_well_formed : well_formed VDFObjectDecoder.init.
Proof.
  unfold well_formed. simpl. split_and!; [by repeat constructor | | lia].
  intros a d k b Hd Hin. destruct a as [|a]; simpl in Hd; [|done].
  injection Hd as <-. by apply elem_of_nil in Hin.
Qed.

Lemma call_well_formed (e : event) (self self' : VDFObjectDecoder.t) (r : result unit) :
  call e self = (r, self') → well_formed self → well_formed self'.
Proof.
  intros Hcall (Hstack & Hrefs & Hroot).
  destruct (call_cases _ _ _ _ Hcall)
    as [(x & -> & ->)|[(k & -> & -> & ->)|[(-> & -> & Hne & ->)|
        [(v & top & -> & -> & Htop & ->)|(top & -> & -> & Htop & ->)]]]];
    unfold well_formed; simpl; try done.
  - split_and!; [|done..]. apply list.Forall_forall. intros a Ha%elem_of_removelast.
    by eapply list.Forall_forall in Hstack.
  - rewrite length_alter. split_and!; [done | | done].
    intros a d k b. rewrite list_lookup_alter. case_decide as Heq.
    + subst a. destruct (VDFObjectDecoder.store self !! top) as [d0|] eqn:Hd0; [|done].
      simpl. intros [= <-] [[=]|Hin]%dict_setitem_elem.
      by apply (Hrefs top d0 k b).
    + apply Hrefs.
  - assert (Htoplt : top < length (VDFObjectDecoder.store self)).
    { eapply list.Forall_forall in Hstack; [done|]. by apply last_Some_elem_of. }
    rewrite length_alter, length_app. simpl. split_and!; [| |lia].
    + apply Forall_app. split.
      * eapply Forall_impl; [done|]. simpl. lia.
      * repeat constructor. lia.
    + intros a d k b. rewrite list_lookup_alter. case_decide as Heq.
      * subst a. rewrite lookup_app_l by done.
        destruct (VDFObjectDecoder.store self !! top) as [d0|] eqn:Hd0; [|done].
        simpl. intros [= <-] [[= _ ->]|Hin]%dict_setitem_elem; [lia|].
        destruct (Hrefs top d0 k b Hd0 Hin). lia.
      * intros Hd Hin.
        destruct (decide (a < length (VDFObjectDecoder.store self))) as [Ha|Ha].
        -- rewrite lookup_app_l in Hd by done.
           destruct (Hrefs a d k b Hd Hin). lia.
        -- rewrite lookup_app_r in Hd by lia.
           destruct (a - length (VDFObjectDecoder.store self)) as [|n];
             simpl in Hd; [|done].
           injection Hd as <-. by apply elem_of_nil in Hin.
Qed.

Lemma run_events_well_formed (evs : list event) (self self' : VDFObjectDecoder.t)
    (r : result unit) :
  run_events evs self = (r, self') → well_formed self → well_formed self'.
Proof.
  revert self. induction evs as [|e evs IH]; intros self; simpl.
  - by intros [= <- <-].
  - destruct (call e self) as [[[]|x] s1] eqn:Hcall.
    + intros Hrun Hwf. apply (IH _ Hrun). by eapply call_well_formed.
    + intros [= <- <-] Hwf. by eapply call_well_formed.
Qed.

Lemma reify_total (h : list pydict) :
  (∀ (a : addr) (d : pydict) (k : pykey) (b : addr),
     h !! a = Some d → (k, VRef b) ∈ d → a < b ∧ b < length h) →
  ∀ (fuel : nat) (a : addr),
    a < length h → length h ≤ a + fuel →
    ∃ entries, reify fuel h a = Some (Object entries).
Proof.
  intros Hrefs fuel. induction fuel as [|fuel IH]; intros a Hlt Hfuel; [lia|].
  rewrite reify_S.
  change (@lookup nat (list (pykey * pyval)) (list pydict) _ a h) with (h !! a).
  destruct (h !! a) as [d|] eqn:Hd; [|apply lookup_ge_None in Hd; lia]. simpl.
  match goal with |- context [mapM ?f d] => destruct (mapM_is_Some_2 f d) as [entries Hm] end.
  - apply list.Forall_forall. intros [k [s|b]] Hin; simpl; [done|].
    destruct (Hrefs a d k b Hd Hin) as [Hab Hb].
    destruct (IH b Hb) as [es Hes]; [lia|]. by rewrite Hes.
  - rewrite Hm. simpl. by eexists.
Qed.

Lemma run_events_object (evs : list event) (self self' : VDFObjectDecoder.t)
    (r : result unit) :
  run_events evs self = (r, self') →
  VDFObjectDecoder.object self' = VDFObjectDecoder.object self.
Proof.
  revert self. induction evs as [|e evs IH]; intros self; simpl.
  - by intros [= <- <-].
  - destruct (call e self) as [[[]|x] s1] eqn:Hcall.
    + intros Hrun%IH. rewrite Hrun.
      by destruct (call_cases _ _ _ _ Hcall)
        as [(? & ? & ->)|[(? & ? & ? & ->)|[(? & ? & ? & ->)|
            [(? & ? & ? & ? & ? & ->)|(? & ? & ? & ? & ->)]]]].
    + intros [= <- <-].
      by destruct (call_cases _ _ _ _ Hcall)
        as [(? & ? & ->)|[(? & ? & ? & ->)|[(? & ? & ? & ->)|
            [(? & ? & ? & ? & ? & ->)|(? & ? & ? & ? & ->)]]]].
Qed.

(** X7. After any events on a new decoder, whether or not a call
    raised, [decoder.object] is a finite tree: the store is well formed
    (every reference goes to a dictionary allocated later) and the
    document can be read out of it. *)
Theorem document_is_always_a_tree (evs : list event)
    (self : VDFObjectDecoder.t) (r : result unit) :
  run_events evs VDFObjectDecoder.init = (r, self) →
  well_formed self
  ∧ VDFObjectDecoder.object self = 0
  ∧ ∃ entries, document self = Some (Object entries).
Proof.
  intros Hrun.
  assert (Hwf : well_formed self).
  { eapply run_events_well_formed; [done | apply init_well_formed]. }
  assert (Hobj : VDFObjectDecoder.object self = 0).
  { by rewrite (run_events_object _ _ _ _ Hrun). }
  split_and!; [done | done |].
  destruct Hwf as (_ & Hrefs & Hroot).
  unfold document. rewrite Hobj in *.
  apply reify_total; [done | done | lia].
Qed.

Lemma document_is_always_a_tree_witness :
  ∃ entries,
    document (run_events [Key "o"; EnterObject; Key "a"; Value "1"; ExitObject;
                          ExitObject; Value "2"] VDFObjectDecoder.init).2
    = Some (Object entries).
Proof.
  refine (proj2 (proj2 (document_is_always_a_tree
            [Key "o"; EnterObject; Key "a"; Value "1"; ExitObject; ExitObject;
             Value "2"] _ (Raise (IndexError "list index out of range")) _))).
  reflexivity.
Defined.

(** ** Balanced blocks *)

(** X8. A balanced block gives the stack back: when every prefix of the
    events has at least as many enters as exits and the whole has as many
    exits as enters, then from any decoder with a non-empty stack no call
    raises and the stack and the root afterwards are the ones before. *)
Theorem balanced_block_restores_stack (evs : list event) (self : VDFObjectDecoder.t) :
  VDFObjectDecoder._stack self ≠ [] →
  (∀ p q, evs = p ++ q → exits p ≤ enters p) →
  exits evs = enters evs →
  ∃ self',
    run_events evs self = (Ok tt, self')
    ∧ VDFObjectDecoder._stack self' = VDFObjectDecoder._stack self
    ∧ VDFObjectDecoder.object self' = VDFObjectDecoder.object self.
Proof.
  intros Hne Hbal Heq.
  destruct (balanced_run evs self Hne Hbal) as (self' & ext & Hrun & Hst & Hlen & Hobj).
  exists self'. split_and!; [done | | done].
  destruct ext; [by rewrite app_nil_r in Hst | simpl in Hlen; lia].
Qed.

Lemma balanced_block_restores_stack_witness :
  ∃ self',
    run_events [Key "o"; EnterObject; Key "a"; Value "1"; ExitObject]
      (VDFObjectDecoder.Make [[]; []] 0 KNone [0; 1]) = (Ok tt, self')
    ∧ VDFObjectDecoder._stack self' = [0; 1].
Proof.
  destruct (balanced_block_restores_stack
              [Key "o"; EnterObject; Key "a"; Value "1"; ExitObject]
              (VDFObjectDecoder.Make [[]; []] 0 KNone [0; 1]))
    as (self' & Hrun & Hst & _).
  - done.
  - intros p q Heq.
    do 6 (destruct p as [|? p]; [simplify_eq/=; lia|]); simplify_eq/=.
  - reflexivity.
  - by exists self'.
Defined.

(** ** What the tree-building decoder builds *)

Lemma item_ind (P : item → Prop) :
  (∀ k v, P (Pair k v)) →
  (∀ k body, Forall P body → P (Block k body)) →
  ∀ i, P i.
Proof.
  intros Hpair Hblock. fix IH 1. intros [k v|k body]; [apply Hpair|].
  apply Hblock. induction body as [|j body IHbody]; constructor; [apply IH | done].
Qed.

Lemma reify_entries (fuel : nat) (h : list pydict) (a : addr) :
  reify (Datatypes.S fuel) h a =
  d ← h !! a; entries ← mapM (reify_entry fuel h) d; Some (Object entries).
Proof. done. Qed.

Lemma Forall2_impl_elem {A B} (P Q : A → B → Prop) (l : list A) (k : list B) :
  Forall2 P l k → (∀ x y, x ∈ l → P x y → Q x y) → Forall2 Q l k.
Proof.
  induction 1 as [|x y l k Hxy Hlk IH]; intros Himpl; constructor.
  - apply Himpl; [apply list_elem_of_here | done].
  - apply IH. intros x' y' Hin. apply Himpl. by apply elem_of_cons; right.
Qed.

Lemma reify_mono (h : list pydict) (fuel fuel' : nat) (a : addr) (n : Node) :
  reify fuel h a = Some n → fuel ≤ fuel' → reify fuel' h a = Some n.
Proof.
  revert fuel' a n. induction fuel as [|fuel IH]; intros fuel' a n; [done|].
  intros Hr Hle. destruct fuel' as [|fuel']; [lia|].
  rewrite reify_entries in *.
  change (@lookup nat (list (pykey * pyval)) (list pydict) _ a h) with (h !! a) in *.
  destruct (h !! a) as [d|]; [|done]. simpl in *.
  destruct (mapM (reify_entry fuel h) d) as [es|] eqn:Hm; [|done].
  simpl in Hr. injection Hr as <-.
  rewrite (proj2 (mapM_Some (reify_entry fuel' h) d es)); [done|].
  apply mapM_Some in Hm. eapply Forall2_impl; [done|].
  intros [k [s|b]] y; unfold reify_entry; simpl; [done|].
  destruct (reify fuel h b) as [m|] eqn:Hb; [|done].
  rewrite (IH fuel' b m Hb); [done | lia].
Qed.

Lemma reify_entry_mono (h : list pydict) (fuel fuel' : nat) (d : pydict)
    (es : list (pykey * Node)) :
  mapM (reify_entry fuel h) d = Some es → fuel ≤ fuel' →
  mapM (reify_entry fuel' h) d = Some es.
Proof.
  intros Hm Hle. apply mapM_Some. apply mapM_Some in Hm.
  eapply Forall2_impl; [done|].
  intros [k [s|b]] y; unfold reify_entry; simpl; [done|].
  destruct (reify fuel h b) as [m|] eqn:Hb; [|done].
  by rewrite (reify_mono h fuel fuel' b m Hb).
Qed.

(** Reading a dictionary allocated after [lo] looks only at
    dictionaries allocated after [lo]. *)
Lemma reify_frame (h h' : list pydict) (lo : addr) :
  (∀ (a : addr) (d : pydict) (k : pykey) (b : addr),
     h !! a = Some d → (k, VRef b) ∈ d → a < b) →
  (∀ a, lo < a → a < length h → h' !! a = h !! a) →
  ∀ (fuel : nat) (b : addr) (n : Node),
    lo < b → reify fuel h b = Some n → reify fuel h' b = Some n.
Proof.
  intros Hrefs Hagree fuel. induction fuel as [|fuel IH]; intros b n Hlo; [done|].
  rewrite !reify_entries.
  change (@lookup nat (list (pykey * pyval)) (list pydict) _ b h) with (h !! b).
  change (@lookup nat (list (pykey * pyval)) (list pydict) _ b h') with (h' !! b).
  destruct (h !! b) as [d|] eqn:Hd; [|done].
  rewrite (Hagree b Hlo (lookup_lt_Some _ _ _ Hd)), Hd. simpl.
  destruct (mapM (reify_entry fuel h) d) as [es|] eqn:Hm; [|done].
  simpl. intros [= <-].
  rewrite (proj2 (mapM_Some (reify_entry fuel h') d es)); [done|].
  apply mapM_Some in Hm. eapply Forall2_impl_elem; [done|].
  intros [k [s|c]] y Hin; unfold reify_entry; simpl; [done|].
  destruct (reify fuel h c) as [m|] eqn:Hc; [|done].
  rewrite (IH c m); [done | | done].
  specialize (Hrefs b d k c Hd Hin). lia.
Qed.

Lemma dict_denotes_frame (h h' : list pydict) (t : addr) (fuel : nat)
    (d : pydict) (es : list (pykey * Node)) :
  (∀ (a : addr) (d : pydict) (k : pykey) (b : addr),
     h !! a = Some d → (k, VRef b) ∈ d → a < b) →
  (∀ a, t < a → a < length h → h' !! a = h !! a) →
  (∀ k b, (k, VRef b) ∈ d → t < b) →
  mapM (reify_entry fuel h) d = Some es →
  mapM (reify_entry fuel h') d = Some es.
Proof.
  intros Hrefs Hagree Hd Hm. apply mapM_Some. apply mapM_Some in Hm.
  eapply Forall2_impl_elem; [done|].
  intros [k [s|c]] y Hin; unfold reify_entry; simpl; [done|].
  destruct (reify fuel h c) as [m|] eqn:Hc; [|done].
  rewrite (reify_frame h h' t Hrefs Hagree fuel c m); [done | by eapply Hd | done].
Qed.

(** Reading a dictionary after an assignment is assigning in the
    mapping read before. *)
Lemma mapM_setitem (g : pykey * pyval → option (pykey * Node))
    (k : pykey) (v : pyval) (n : Node) (d : pydict) (es : list (pykey * Node)) :
  (∀ kv y, g kv = Some y → y.1 = kv.1) →
  g (k, v) = Some (k, n) →
  mapM g d = Some es →
  mapM g (dict_setitem k v d) = Some (node_setitem k n es).
Proof.
  intros Hkeys Hkv. revert es. induction d as [|[k0 v0] d IH]; intros es; simpl.
  - intros [= <-]. by rewrite Hkv.
  - destruct (g (k0, v0)) as [[k1 n0]|] eqn:Hg0; [|done]. simpl.
    destruct (mapM g d) as [es'|] eqn:Hm; [|done]. simpl. intros [= <-].
    pose proof (Hkeys _ _ Hg0) as Hk1. simpl in Hk1. subst k1.
    destruct (decide (k0 = k)) as [->|Hne]; simpl.
    + rewrite Hkv. simpl. rewrite Hm. simpl. by rewrite decide_True.
    + rewrite Hg0. simpl. rewrite (IH es' eq_refl). simpl. by rewrite decide_False.
Qed.

Lemma reify_entry_key (fuel : nat) (h : list pydict) (kv : pykey * pyval)
    (y : pykey * Node) :
  reify_entry fuel h kv = Some y → y.1 = kv.1.
Proof.
  unfold reify_entry. destruct kv as [k [s|b]]; simpl; [by intros [= <-]|].
  destruct (reify fuel h b); [|done]. by intros [= <-].
Qed.

Lemma well_formed_refs (s : VDFObjectDecoder.t) :
  well_formed s →
  ∀ (a : addr) (d : pydict) (k : pykey) (b : addr),
    VDFObjectDecoder.store s !! a = Some d → (k, VRef b) ∈ d → a < b.
Proof. intros (_ & Hrefs & _) a d k b Hd Hin. by destruct (Hrefs a d k b Hd Hin). Qed.

Lemma builds_nil : builds [] id.
Proof.
  intros s t d es Hwf Htop Hd Hes. exists s, d. simpl. by split_and!.
Qed.

Lemma builds_app (e1 e2 : list event)
    (F1 F2 : list (pykey * Node) → list (pykey * Node)) :
  builds e1 F1 → builds e2 F2 → builds (e1 ++ e2) (F2 ∘ F1).
Proof.
  intros H1 H2 s t d es Hwf Htop Hd Hes.
  destruct (H1 s t d es Hwf Htop Hd Hes)
    as (s1 & d1 & Hrun1 & Hst1 & Hlen1 & Hfr1 & Hd1 & Hes1).
  assert (Hwf1 : well_formed s1) by by eapply run_events_well_formed.
  destruct (H2 s1 t d1 (F1 es) Hwf1 ltac:(by rewrite Hst1) Hd1 Hes1)
    as (s2 & d2 & Hrun2 & Hst2 & Hlen2 & Hfr2 & Hd2 & Hes2).
  exists s2, d2. rewrite run_events_app, Hrun1.
  split_and!; [done | congruence | lia | | done | done].
  intros a Ha Hne. rewrite Hfr2 by (done || lia). by apply Hfr1.
Qed.

Lemma builds_pair (k v : string) :
  builds [Key k; Value v] (node_setitem (KStr k) (Scalar v)).
Proof.
  intros s t d es Hwf Htop Hd [fuel Hes].
  assert (Hrun : run_events [Key k; Value v] s
                 = (Ok tt,
                    VDFObjectDecoder.Make
                      (alter (dict_setitem (KStr k) (VStr v)) t
                         (VDFObjectDecoder.store s))
                      (VDFObjectDecoder.object s) KNone
                      (VDFObjectDecoder._stack s))).
  { simpl. unfold VDFObjectDecoder.on_value. simpl. by rewrite Htop. }
  eexists _, _. split; [exact Hrun|].
  cbn [VDFObjectDecoder.store VDFObjectDecoder._stack].
  split_and!; [done | by rewrite length_alter | | |].
  - intros a Ha Hne. by rewrite list_lookup_alter_ne.
  - by rewrite list_lookup_alter_eq, Hd.
  - exists fuel. apply mapM_setitem.
    + apply reify_entry_key.
    + done.
    + eapply (dict_denotes_frame _ _ t); [by apply well_formed_refs | | | done].
      * intros a Hta _. apply list_lookup_alter_ne. lia.
      * intros k' b Hin. by eapply (well_formed_refs s).
Qed.

Lemma builds_block (k : string) (evs : list event)
    (F : list (pykey * Node) → list (pykey * Node)) :
  builds evs F →
  builds (Key k :: EnterObject :: evs ++ [ExitObject])
    (node_setitem (KStr k) (Object (F []))).
Proof.
  intros Hbody s t d es Hwf Htop Hd [fuel Hes].
  set (fresh := length (VDFObjectDecoder.store s)).
  assert (Htlt : t < fresh) by by eapply lookup_lt_Some.
  destruct (call EnterObject (VDFObjectDecoder.on_key k s).2) as [r1 s1] eqn:Hcall.
  pose proof Hcall as Hs1. simpl in Hs1.
  unfold VDFObjectDecoder.on_object_enter in Hs1. simpl in Hs1.
  rewrite Htop in Hs1. injection Hs1 as <- <-.
  match type of Hcall with _ = (_, ?x) => set (s1 := x) in * end.
  assert (Hwf1 : well_formed s1).
  { eapply call_well_formed; [exact Hcall|].
    by apply (call_well_formed (Key k) s _ (Ok tt)). }
  assert (Htop1 : last (VDFObjectDecoder._stack s1) = Some fresh).
  { subst s1. simpl. apply last_snoc. }
  assert (Hfresh1 : VDFObjectDecoder.store s1 !! fresh = Some []).
  { subst s1. simpl. rewrite list_lookup_alter_ne by lia.
    by apply list_lookup_middle. }
  assert (Ht1 : VDFObjectDecoder.store s1 !! t
                = Some (dict_setitem (KStr k) (VRef fresh) d)).
  { subst s1. simpl. by rewrite list_lookup_alter_eq, lookup_app_l, Hd. }
  assert (Hlen1 : length (VDFObjectDecoder.store s1) = Datatypes.S fresh).
  { subst s1. simpl. rewrite length_alter, length_app. simpl. lia. }
  assert (Hfr1 : ∀ a, a < fresh → a ≠ t →
            VDFObjectDecoder.store s1 !! a = VDFObjectDecoder.store s !! a).
  { intros a Ha Hne. subst s1. simpl.
    rewrite list_lookup_alter_ne by done. by apply lookup_app_l. }
  destruct (Hbody s1 fresh [] [] Hwf1 Htop1 Hfresh1 ltac:(by exists 0))
    as (s2 & d2 & Hrun2 & Hst2 & Hlen2 & Hfr2 & Hd2 & [fuel2 Hes2]).
  assert (Hst2' : VDFObjectDecoder._stack s2 = VDFObjectDecoder._stack s ++ [fresh]).
  { by rewrite Hst2. }
  eexists (VDFObjectDecoder.Make (VDFObjectDecoder.store s2)
             (VDFObjectDecoder.object s2) (VDFObjectDecoder._key s2)
             (VDFObjectDecoder._stack s)), _.
  assert (Ht2 : VDFObjectDecoder.store s2 !! t
                = Some (dict_setitem (KStr k) (VRef fresh) d)).
  { rewrite Hfr2 by lia. exact Ht1. }
  split_and!.
  - change (Key k :: EnterObject :: evs ++ [ExitObject])
      with ([Key k; EnterObject] ++ (evs ++ [ExitObject])).
    rewrite run_events_app.
    assert (Hhead : run_events [Key k; EnterObject] s = (Ok tt, s1)).
    { simpl. unfold VDFObjectDecoder.on_object_enter. simpl. by rewrite Htop. }
    rewrite Hhead, run_events_snoc, Hrun2. simpl.
    rewrite on_object_exit_nonempty by (rewrite Hst2'; by destruct (VDFObjectDecoder._stack s)).
    by rewrite Hst2', removelast_last.
  - done.
  - simpl. lia.
  - intros a Ha Hne. simpl. rewrite Hfr2 by lia. by apply Hfr1.
  - simpl. exact Ht2.
  - simpl. exists (Nat.max fuel (Datatypes.S fuel2)).
    assert (Hagree : ∀ a, t < a → a < length (VDFObjectDecoder.store s) →
              VDFObjectDecoder.store s2 !! a = VDFObjectDecoder.store s !! a).
    { intros a Hta Ha. rewrite Hfr2 by (unfold fresh in *; lia).
      apply Hfr1; [done | lia]. }
    apply mapM_setitem.
    + apply reify_entry_key.
    + unfold reify_entry. simpl.
      rewrite (reify_mono _ (Datatypes.S fuel2) _ fresh (Object (F []))); [done | | lia].
      rewrite reify_entries.
      change (@lookup nat (list (pykey * pyval)) (list pydict) _ fresh
                (VDFObjectDecoder.store s2))
        with (VDFObjectDecoder.store s2 !! fresh).
      rewrite Hd2. simpl. by rewrite Hes2.
    + eapply reify_entry_mono; [|apply Nat.le_max_l].
      eapply (dict_denotes_frame (VDFObjectDecoder.store s) _ t);
        [exact (well_formed_refs s Hwf) | exact Hagree | | done].
      intros k' b Hin. by eapply (well_formed_refs s).
Qed.

Lemma builds_items (body : list item) :
  Forall (λ i, builds (item_events i) (λ es, assign es i)) body →
  builds (events_of body) (λ es, fold_left assign body es).
Proof.
  unfold events_of. induction 1 as [|i body Hi Hbody IH]; simpl.
  - apply builds_nil.
  - by apply (builds_app _ _ _ _ Hi).
Qed.

Lemma builds_item (i : item) : builds (item_events i) (λ es, assign es i).
Proof.
  induction i as [k v|k body IH] using item_ind.
  - apply builds_pair.
  - apply (builds_block k _ _ (builds_items body IH)).
Qed.

(** X9. The tree-building decoder builds the nested mapping that the
    events describe.  For every well-nested stream of callbacks (a key
    followed by a value, or by [on_object_enter], a well-nested body and
    [on_object_exit]) no call raises, the stack ends with the root alone,
    and [decoder.object] is the ordered mapping obtained by assigning each
    item in turn, a block being the mapping of its body: a repeated key
    keeps its place and takes the last value, scalar or block. *)
Theorem decoder_builds_nested_mapping (body : list item) :
  ∃ self,
    run_events (events_of body) VDFObjectDecoder.init = (Ok tt, self)
    ∧ VDFObjectDecoder._stack self = [0]
    ∧ document self = Some (Object (entries_of body)).
Proof.
  destruct (builds_items body (proj2 (list.Forall_forall _ _) (λ i _, builds_item i))
              VDFObjectDecoder.init 0 [] [] init_well_formed eq_refl eq_refl
              ltac:(by exists 0))
    as (self & d' & Hrun & Hst & _ & _ & Hd' & [fuel Hes]).
  exists self. split_and!; [done | done |].
  assert (Hwf : well_formed self).
  { eapply run_events_well_formed; [done | apply init_well_formed]. }
  unfold document. rewrite (run_events_object _ _ _ _ Hrun). simpl.
  destruct Hwf as (_ & Hrefs & _).
  destruct (reify_total _ Hrefs (length (VDFObjectDecoder.store self)) 0)
    as [entries Hdoc]; [by eapply lookup_lt_Some | lia |].
  rewrite Hdoc. do 2 f_equal.
  assert (Hread : reify (Datatypes.S fuel) (VDFObjectDecoder.store self) 0
                  = Some (Object (entries_of body))).
  { rewrite reify_entries.
    change (@lookup nat (list (pykey * pyval)) (list pydict) _ 0
              (VDFObjectDecoder.store self))
      with (VDFObjectDecoder.store self !! 0).
    rewrite Hd'. simpl. by rewrite Hes. }
  apply (reify_mono _ _ (Nat.max (Datatypes.S fuel)
                           (length (VDFObjectDecoder.store self)))) in Hread;
    [|apply Nat.le_max_l].
  apply (reify_mono _ _ (Nat.max (Datatypes.S fuel)
                           (length (VDFObjectDecoder.store self)))) in Hdoc;
    [|apply Nat.le_max_r].
  congruence.
Qed.

(** ** The chunks that [load] feeds *)

Lemma read_chunks_nonempty (size bound : nat) (readable : text) :
  Forall (λ chunk, chunk ≠ [] ∧ length chunk ≤ size) (read_chunks size bound readable).
Proof.
  revert readable. induction bound as [|bound IH]; intros readable; simpl; [done|].
  unfold read. destruct (take size readable) as [|c chunk] eqn:Htake; [done|].
  constructor; [|apply IH]. split; [done|].
  rewrite <- Htake, length_take. lia.
Qed.

Lemma read_chunks_full (size bound : nat) (readable : text) (i : nat) (chunk : text) :
  read_chunks size bound readable !! i = Some chunk →
  Datatypes.S i < length (read_chunks size bound readable) →
  length chunk = size.
Proof.
  revert readable i. induction bound as [|bound IH]; intros readable i; simpl; [done|].
  unfold read. destruct (take size readable) as [|c rest] eqn:Htake; [done|].
  destruct i as [|i]; simpl.
  - intros [= <-] Hnext. rewrite <- Htake, length_take.
    destruct bound as [|bound]; simpl in Hnext; [lia|].
    unfold read in Hnext.
    destruct (take size (drop size readable)) as [|c' rest'] eqn:Htake'; [simpl in Hnext; lia|].
    assert (size < length readable); [|lia].
    destruct (decide (size < length readable)) as [|Hge]; [done|].
    rewrite drop_ge in Htake' by lia. by rewrite take_nil in Htake'.
  - intros Hi Hnext. apply (IH _ _ Hi). lia.
Qed.

(** X10. [load] feeds the contents of the readable in order and in
    chunks of 4096 characters: the chunks read by
    [iter(lambda: readable.read(4096), '')] are not empty, put together
    they are the contents, every chunk but the last has exactly 4096
    characters and the last at most 4096; nothing is fed for empty
    contents. *)
Theorem load_feeds_chunks_of_4096 (readable : text) :
  concat (chunks_of readable) = readable
  ∧ Forall (λ chunk, chunk ≠ [] ∧ length chunk ≤ 4096) (chunks_of readable)
  ∧ (∀ i chunk, chunks_of readable !! i = Some chunk →
       Datatypes.S i < length (chunks_of readable) → length chunk = 4096)
  ∧ (chunks_of readable = [] ↔ readable = []).
Proof.
  split_and!.
  - apply chunks_of_concat.
  - apply read_chunks_nonempty.
  - apply read_chunks_full.
  - split.
    + intros Hnil. by rewrite <- (chunks_of_concat readable), Hnil.
    + by intros ->.
Qed.

Lemma load_feeds_chunks_of_4096_witness :
  ∃ chunk,
    chunks_of (replicate 5000 SP) !! 0 = Some chunk ∧ length chunk = 4096.
Proof.
  exists (take 4096 (replicate 5000 SP)).
  assert (Hfirst : chunks_of (replicate 5000 SP) !! 0
                   = Some (take 4096 (replicate 5000 SP)))
    by (vm_compute; reflexivity).
  split; [exact Hfirst|].
  apply (proj1 (proj2 (proj2 (load_feeds_chunks_of_4096 (replicate 5000 SP)))) 0 _ Hfirst).
  vm_compute. lia.
Defined.
